(** * Reverse-Delete MST visualizer: graph primitives, validation engine,
      trace generation and the undo/redo store.

    A shallow embedding of [lib/types.ts], [lib/graph.ts],
    [lib/validation.ts], [lib/reverseDelete.ts] and [lib/store.ts].

    Modelling conventions.
    - Vertex labels are [string]s; JavaScript compares and sorts them by
      code unit, which for the ASCII labels the editor produces is the
      byte order of [String.compare].
    - An edge weight is a JavaScript number, a double.  The weights
      covered here are the integers and [NaN]: [Num z] stands for the
      double whose value is [z].  Differences and sums are rounded to 53
      significant bits as the machine rounds them, and a number is
      rendered the way a template literal renders it.  Weights with a
      fractional part, infinite weights and sums beyond the range of a
      double are outside this development.
    - [Set<string>] is a [gset string], [Map<string, string[]>] is a
      [gmap string (list string)].
    - Arrays are lists; the one place where an array is sorted in place
      ([getNextVertexLabel]) returns the array it leaves behind.
    - Copies ([cloneGraph], spreads) are equal values; the store is a
      record passed from one action to the next.
    The dagre layout of [lib/layout.ts], the example presets and the
    React components are outside this development. *)

From stdpp Require Import gmap strings list pretty sorting relations.
From Stdlib Require Import ZArith Lia Ascii.

Set Warnings "-clear-no-such-hyp".

Open Scope Z_scope.
Open Scope string_scope.
Open Scope list_scope.

(** ** lib/types.ts *)

Inductive number : Type :=
  | NaN : number
  | Num : Z → number.

Global Instance number_eq_dec : EqDecision number.
Proof. solve_decision. Defined.

Record Edge : Type := mkEdge { u : string; v : string; w : number }.

Global Instance Edge_eq_dec : EqDecision Edge.
Proof. solve_decision. Defined.

Record Graph : Type := mkGraph { vertices : list string; edges : list Edge }.

Global Instance Graph_eq_dec : EqDecision Graph.
Proof. solve_decision. Defined.

Record NodePosition : Type := mkPos { x : Z; y : Z }.

Global Instance NodePosition_eq_dec : EqDecision NodePosition.
Proof. solve_decision. Defined.

Inductive StepType : Type := consider | keep | delete | complete.

Global Instance StepType_eq_dec : EqDecision StepType.
Proof. solve_decision. Defined.

Module Step.
Record t : Type := mk {
  type : StepType;
  edge : Edge;
  explanation : string;
  snapshot : Graph;
  stepNumber : nat
}.
End Step.

Inductive ErrorType : Type :=
  | duplicate_edge | missing_weight | negative_weight
  | disconnected | self_loop | multi_edge.

Global Instance ErrorType_eq_dec : EqDecision ErrorType.
Proof. solve_decision. Defined.

Module ValidationError.
Record t : Type := mk {
  type : ErrorType;
  message : string;
  edge : option Edge;
  vertex : option string
}.
End ValidationError.

Global Instance ValidationError_eq_dec : EqDecision ValidationError.t.
Proof. solve_decision. Defined.

(** ** JavaScript numbers, as far as the program looks at them *)

(** The value of the double nearest to the integer [z]: [z] itself up to
    [2^53], and beyond that [z] rounded to 53 significant bits, a tie
    going to the even significand. *)
Definition roundDouble (z : Z) : Z :=
  let a := Z.abs z in
  if bool_decide (a ≤ 2 ^ 53)%Z then z
  else
    let e := Z.log2 a - 52 in
    let q := Z.shiftr a e in
    let r := a - Z.shiftl q e in
    let half := Z.shiftl 1 (e - 1) in
    let q' := if bool_decide (r < half)%Z then q
              else if bool_decide (half < r)%Z then q + 1
              else if Z.even q then q else q + 1 in
    Z.sgn z * Z.shiftl q' e.

(** [a - b]; NaN is absorbing. *)
Definition num_sub (a b : number) : number :=
  match a, b with
  | Num p, Num q => Num (roundDouble (p - q))
  | _, _ => NaN
  end.

(** [a + b]. *)
Definition num_add (a b : number) : number :=
  match a, b with
  | Num p, Num q => Num (roundDouble (p + q))
  | _, _ => NaN
  end.

Definition isNaN (a : number) : bool :=
  match a with NaN => true | Num _ => false end.

(** [a < 0], false on NaN. *)
Definition num_neg (a : number) : bool :=
  match a with NaN => false | Num p => bool_decide (p < 0) end.

(** [a > 0], false on NaN. *)
Definition num_pos (a : number) : bool :=
  match a with NaN => false | Num p => bool_decide (0 < p) end.

(** Template-literal rendering of a number ([Number::toString]).  Up to
    [2^53] every digit is printed.  Beyond, the digits are those of the
    shortest decimal that reads back as the same double (the nearest one
    when there are two), padded with zeros up to 21 digits and in
    exponent notation from 22 digits on. *)
Definition digitsAt (a : Z) (n k : nat) : option Z :=
  let scale := 10 ^ Z.of_nat (n - k) in
  let lo := (a / scale) * scale in
  let hi := lo + scale in
  match bool_decide (roundDouble lo = a), bool_decide (roundDouble hi = a) with
  | true, false => Some lo
  | false, true => Some hi
  | true, true =>
      Some (if bool_decide (a - lo < hi - a)%Z then lo
            else if bool_decide (hi - a < a - lo)%Z then hi
            else if Z.even (a / scale) then lo else hi)
  | false, false => None
  end.

Definition shortestDigits (a : Z) : Z :=
  let n := String.length (pretty a) in
  default a (foldr (λ k later, match digitsAt a n k with
                               | Some d => Some d
                               | None => later
                               end) None (seq 1 17)).

Fixpoint stripZeros (fuel : nat) (z : Z) : Z :=
  match fuel with
  | O => z
  | S fuel' =>
      if bool_decide (z `mod` 10 = 0) then stripZeros fuel' (z / 10) else z
  end.

Definition show_magnitude (a : Z) : string :=
  if bool_decide (a ≤ 2 ^ 53)%Z then pretty a
  else
    let d := shortestDigits a in
    let n := String.length (pretty d) in
    if bool_decide (n ≤ 21)%nat then pretty d
    else
      match pretty (stripZeros n d) with
      | String c EmptyString => String c ("e+" +:+ pretty (n - 1)%nat)
      | String c rest =>
          String c ("." +:+ rest +:+ "e+" +:+ pretty (n - 1)%nat)
      | EmptyString => EmptyString
      end.

Definition show_number (a : number) : string :=
  match a with
  | NaN => "NaN"
  | Num p =>
      if bool_decide (p < 0)%Z then "-" +:+ show_magnitude (- p)
      else show_magnitude p
  end.

Arguments roundDouble : simpl never.
Arguments show_number : simpl never.

(** [Array.prototype.sort(cmp)]: a stable sort; [x] is placed after [y]
    exactly when [cmp x y > 0].  With the comparator of [reverseDelete]
    and no NaN weight this is the one stable descending order.  A NaN
    result counts as zero here; a comparator that answers NaN is not
    consistent, the order an engine then produces is its own, and what is
    proved below for such inputs uses only that the result is a
    rearrangement of the input. *)
Section js_sort.
Context {A : Type} (cmp : A → A → number).

Fixpoint sort_insert (a : A) (l : list A) : list A :=
  match l with
  | [] => [a]
  | b :: l' => if num_pos (cmp a b) then b :: sort_insert a l' else a :: l
  end.

Fixpoint js_sort (l : list A) : list A :=
  match l with
  | [] => []
  | a :: l' => sort_insert a (js_sort l')
  end.
End js_sort.

(** [Array.prototype.sort()] on strings: ascending code-unit order. *)
Fixpoint str_insert (a : string) (l : list string) : list string :=
  match l with
  | [] => [a]
  | b :: l' => if String.ltb b a then b :: str_insert a l' else a :: l
  end.

Fixpoint str_sort (l : list string) : list string :=
  match l with
  | [] => []
  | a :: l' => str_insert a (str_sort l')
  end.

(** ** lib/graph.ts *)

Definition edgesEqual (e1 e2 : Edge) : bool :=
  (bool_decide (u e1 = u e2) && bool_decide (v e1 = v e2))
  || (bool_decide (u e1 = v e2) && bool_decide (v e1 = u e2)).

Definition getEdgesForVertex (g : Graph) (vertex : string) : list Edge :=
  List.filter (λ e, bool_decide (u e = vertex) || bool_decide (v e = vertex))
              (edges g).

(** [adjList.get(a)?.push(b)]: nothing happens when [a] has no entry. *)
Definition adj_push (a b : string) (adjList : gmap string (list string))
  : gmap string (list string) :=
  match adjList !! a with
  | Some l => <[a := l ++ [b]]> adjList
  | None => adjList
  end.

Definition buildAdjList (g : Graph) : gmap string (list string) :=
  let adjList := foldl (λ m a, <[a := []]> m) ∅ (vertices g) in
  foldl (λ m e, adj_push (v e) (u e) (adj_push (u e) (v e) m)) adjList (edges g).

(** The recursive [dfs] closure of [isConnected].  [visited] is threaded
    through; [fuel] bounds the nesting depth of the recursion. *)
Fixpoint dfs (fuel : nat) (adjList : gmap string (list string))
    (vertex : string) (visited : gset string) : gset string :=
  match fuel with
  | O => visited
  | S fuel' =>
      let visited := {[vertex]} ∪ visited in
      let neighbors := default [] (adjList !! vertex) in
      foldl (λ vis neighbor,
               if decide (neighbor ∈ vis) then vis
               else dfs fuel' adjList neighbor vis)
            visited neighbors
  end.

(** Every nested call marks a label that was not marked before, and a
    label is a vertex or an edge endpoint, so the nesting depth never
    exceeds this number. *)
Definition dfs_fuel (g : Graph) : nat :=
  (length (vertices g) + 2 * length (edges g))%nat.

Definition isConnected (g : Graph) : bool :=
  match vertices g with
  | [] => true
  | [_] => true
  | first :: _ =>
      let visited := dfs (dfs_fuel g) (buildAdjList g) first ∅ in
      bool_decide (size visited = length (vertices g))
  end.

(** [graph.vertices.sort()] sorts the array in place: the function
    returns the label together with the graph object as it is left. *)
Definition getNextVertexLabel (g : Graph) : string * Graph :=
  let labels := str_sort (vertices g) in
  let g' := mkGraph labels (edges g) in
  match last labels with
  | None => ("A", g')
  | Some lastLabel =>
      let fallback := "A" +:+ pretty (length labels) in
      match lastLabel with
      | String c EmptyString =>
          (* [String.fromCharCode(lastLabel.charCodeAt(0) + 1) <= 'Z'] *)
          let code := S (nat_of_ascii c) in
          if bool_decide (code ≤ nat_of_ascii "Z"%char)%nat
          then (String (ascii_of_nat code) EmptyString, g')
          else (fallback, g')
      | _ => (fallback, g')
      end
  end.

Definition cloneGraph (g : Graph) : Graph :=
  mkGraph (vertices g) (List.map (λ e, mkEdge (u e) (v e) (w e)) (edges g)).

Definition removeEdge (g : Graph) (e : Edge) : Graph :=
  mkGraph (vertices g) (List.filter (λ e', negb (edgesEqual e' e)) (edges g)).

Definition addEdge (g : Graph) (e : Edge) : Graph :=
  mkGraph (vertices g) (edges g ++ [e]).

Definition triangle : Graph :=
  mkGraph ["A"; "B"; "C"]
          [mkEdge "A" "B" (Num 3); mkEdge "B" "C" (Num 4); mkEdge "A" "C" (Num 5)].

(** ** lib/validation.ts *)

Definition edge_label (e : Edge) : string := u e +:+ "-" +:+ v e.

Definition mkError (ty : ErrorType) (msg : string) (e : option Edge)
  : ValidationError.t :=
  ValidationError.mk ty msg e None.

(** One iteration of the duplicate-edge loop: the seen set and the errors
    pushed so far. *)
Definition dupScan_step (st : gset string * list ValidationError.t) (e : Edge)
  : gset string * list ValidationError.t :=
  let edgeKey1 := u e +:+ "-" +:+ v e in
  let edgeKey2 := v e +:+ "-" +:+ u e in
  if bool_decide (edgeKey1 ∈ st.1) || bool_decide (edgeKey2 ∈ st.1)
  then (st.1, st.2 ++ [mkError duplicate_edge
                          ("Duplicate edge found: " +:+ edge_label e) (Some e)])
  else ({[edgeKey2]} ∪ ({[edgeKey1]} ∪ st.1), st.2).

Definition duplicateScan (es : list Edge) : list ValidationError.t :=
  (foldl dupScan_step (∅, []) es).2.

Definition selfLoopScan (es : list Edge) : list ValidationError.t :=
  flat_map (λ e, if bool_decide (u e = v e)
                 then [mkError self_loop
                         ("Self-loop detected at vertex " +:+ u e) (Some e)]
                 else []) es.

Definition weightScan (es : list Edge) : list ValidationError.t :=
  flat_map (λ e, if isNaN (w e)
                 then [mkError missing_weight
                         ("Missing weight for edge " +:+ edge_label e) (Some e)]
                 else if num_neg (w e)
                 then [mkError negative_weight
                         ("Negative weight found for edge " +:+ edge_label e
                            +:+ ": " +:+ show_number (w e)) (Some e)]
                 else []) es.

Definition danglingError (e : Edge) (a : string) : ValidationError.t :=
  mkError multi_edge ("Edge references non-existent vertex: " +:+ a) (Some e).

Definition danglingScan (vs : list string) (es : list Edge)
  : list ValidationError.t :=
  flat_map (λ e, (if bool_decide (u e ∈ vs) then [] else [danglingError e (u e)])
                 ++ (if bool_decide (v e ∈ vs) then [] else [danglingError e (v e)]))
           es.

(** The errors pushed by the four scans that precede the connectivity
    check, in the order they are pushed. *)
Definition structuralErrors (g : Graph) : list ValidationError.t :=
  duplicateScan (edges g) ++ selfLoopScan (edges g)
  ++ weightScan (edges g) ++ danglingScan (vertices g) (edges g).

Definition emptyGraphError : ValidationError.t :=
  mkError disconnected "Graph must have at least one vertex" None.

Definition disconnectedError : ValidationError.t :=
  mkError disconnected
    "Graph is not connected. All vertices must be reachable from each other."
    None.

Definition validateGraph (g : Graph) : list ValidationError.t :=
  if bool_decide (length (vertices g) = 0%nat) then [emptyGraphError]
  else
    let errors := structuralErrors g in
    if bool_decide (length errors = 0%nat) && negb (isConnected g)
    then errors ++ [disconnectedError]
    else errors.

Definition isValidGraph (g : Graph) : bool :=
  bool_decide (length (validateGraph g) = 0%nat).

(** ** lib/reverseDelete.ts *)

Definition getTotalWeight (g : Graph) : number :=
  foldl (λ sum e, num_add sum (w e)) (Num 0) (edges g).

(** The loop-carried variables of [reverseDelete]. *)
Record rd_state : Type := mkRd {
  currentGraph : Graph;
  rd_steps : list Step.t;
  rd_stepNumber : nat
}.

Definition weight_phrase (e : Edge) : string :=
  edge_label e +:+ " (weight " +:+ show_number (w e) +:+ ")".

(** The body of the [for] loop over [sortedEdges]. *)
Definition rd_body (st : rd_state) (edge : Edge) : rd_state :=
  let cur := currentGraph st in
  let edgeExists := existsb (λ e, edgesEqual e edge) (edges cur) in
  if negb edgeExists then st
  else
    let n := rd_stepNumber st in
    let steps1 := rd_steps st ++
      [Step.mk consider edge
         ("Considering edge " +:+ edge_label edge +:+ " with weight "
            +:+ show_number (w edge) +:+ " (heaviest remaining).")
         (cloneGraph cur) n] in
    let graphWithoutEdge := removeEdge cur edge in
    let removalWouldDisconnect := negb (isConnected graphWithoutEdge) in
    if removalWouldDisconnect
    then mkRd cur
           (steps1 ++
            [Step.mk keep edge
               ("Keeping edge " +:+ weight_phrase edge
                  +:+ ". Removing it would disconnect the graph, so it's part of the MST.")
               (cloneGraph cur) (S n)])
           (S (S n))
    else mkRd graphWithoutEdge
           (steps1 ++
            [Step.mk delete edge
               ("Removing edge " +:+ weight_phrase edge
                  +:+ ". Graph remains connected, so this edge is not needed for the MST.")
               (cloneGraph graphWithoutEdge) (S n)])
           (S (S n)).

Definition sortEdges (es : list Edge) : list Edge :=
  js_sort (λ a b, num_sub (w b) (w a)) es.

Definition reverseDelete (graph : Graph) : list Step.t :=
  let currentGraph0 := cloneGraph graph in
  let sortedEdges := sortEdges (edges graph) in
  match sortedEdges with
  | [] => []
  | first :: _ =>
      let st0 := mkRd currentGraph0
        [Step.mk consider first
           "Starting Reverse-Delete algorithm. We'll process edges in descending order of weight."
           (cloneGraph currentGraph0) 0%nat]
        1%nat in
      let st := foldl rd_body st0 sortedEdges in
      let cur := currentGraph st in
      let mstWeight := foldl (λ sum e, num_add sum (w e)) (Num 0) (edges cur) in
      rd_steps st ++
      [Step.mk complete (default first (last sortedEdges))
         ("Algorithm complete! The MST has " +:+ pretty (length (edges cur))
            +:+ " edges with total weight " +:+ show_number mstWeight +:+ ".")
         (cloneGraph cur) (rd_stepNumber st)]
  end.

(** The step a viewer sees last before the terminal [complete] step. *)
Definition lastNonComplete (steps : list Step.t) : option Step.t :=
  last (List.filter (λ s, negb (bool_decide (Step.type s = complete))) steps).

(** ** lib/store.ts *)

Module GraphHistoryEntry.
Record t : Type := mk {
  graph : Graph;
  nodePositions : gmap string NodePosition
}.
End GraphHistoryEntry.

Inductive PlaySpeed : Type := slow | normal | fast.

Module GraphStore.
Record t : Type := mk {
  graph : Graph;
  nodePositions : gmap string NodePosition;
  steps : list Step.t;
  currentStep : nat;
  isPlaying : bool;
  playSpeed : PlaySpeed;
  validationErrors : list ValidationError.t;
  selectedVertices : list string;
  selectedEdge : option (string * string);
  edgeCreationMode : bool;
  history : list GraphHistoryEntry.t;
  future : list GraphHistoryEntry.t
}.

(** Partial updates, as [set({ ... })] performs them. *)
Definition set_graph (a : Graph) (s : t) : t :=
  mk a (nodePositions s) (steps s) (currentStep s) (isPlaying s) (playSpeed s)
     (validationErrors s) (selectedVertices s) (selectedEdge s)
     (edgeCreationMode s) (history s) (future s).
Definition set_nodePositions (a : gmap string NodePosition) (s : t) : t :=
  mk (graph s) a (steps s) (currentStep s) (isPlaying s) (playSpeed s)
     (validationErrors s) (selectedVertices s) (selectedEdge s)
     (edgeCreationMode s) (history s) (future s).
Definition set_steps (a : list Step.t) (s : t) : t :=
  mk (graph s) (nodePositions s) a (currentStep s) (isPlaying s) (playSpeed s)
     (validationErrors s) (selectedVertices s) (selectedEdge s)
     (edgeCreationMode s) (history s) (future s).
Definition set_currentStep (a : nat) (s : t) : t :=
  mk (graph s) (nodePositions s) (steps s) a (isPlaying s) (playSpeed s)
     (validationErrors s) (selectedVertices s) (selectedEdge s)
     (edgeCreationMode s) (history s) (future s).
Definition set_isPlaying (a : bool) (s : t) : t :=
  mk (graph s) (nodePositions s) (steps s) (currentStep s) a (playSpeed s)
     (validationErrors s) (selectedVertices s) (selectedEdge s)
     (edgeCreationMode s) (history s) (future s).
Definition set_playSpeed (a : PlaySpeed) (s : t) : t :=
  mk (graph s) (nodePositions s) (steps s) (currentStep s) (isPlaying s) a
     (validationErrors s) (selectedVertices s) (selectedEdge s)
     (edgeCreationMode s) (history s) (future s).
Definition set_validationErrors (a : list ValidationError.t) (s : t) : t :=
  mk (graph s) (nodePositions s) (steps s) (currentStep s) (isPlaying s)
     (playSpeed s) a (selectedVertices s) (selectedEdge s)
     (edgeCreationMode s) (history s) (future s).
Definition set_selectedVertices (a : list string) (s : t) : t :=
  mk (graph s) (nodePositions s) (steps s) (currentStep s) (isPlaying s)
     (playSpeed s) (validationErrors s) a (selectedEdge s)
     (edgeCreationMode s) (history s) (future s).
Definition set_selectedEdge (a : option (string * string)) (s : t) : t :=
  mk (graph s) (nodePositions s) (steps s) (currentStep s) (isPlaying s)
     (playSpeed s) (validationErrors s) (selectedVertices s) a
     (edgeCreationMode s) (history s) (future s).
Definition set_edgeCreationMode (a : bool) (s : t) : t :=
  mk (graph s) (nodePositions s) (steps s) (currentStep s) (isPlaying s)
     (playSpeed s) (validationErrors s) (selectedVertices s) (selectedEdge s)
     a (history s) (future s).
Definition set_history (a : list GraphHistoryEntry.t) (s : t) : t :=
  mk (graph s) (nodePositions s) (steps s) (currentStep s) (isPlaying s)
     (playSpeed s) (validationErrors s) (selectedVertices s) (selectedEdge s)
     (edgeCreationMode s) a (future s).
Definition set_future (a : list GraphHistoryEntry.t) (s : t) : t :=
  mk (graph s) (nodePositions s) (steps s) (currentStep s) (isPlaying s)
     (playSpeed s) (validationErrors s) (selectedVertices s) (selectedEdge s)
     (edgeCreationMode s) (history s) a.
End GraphStore.

Import GraphStore.

Definition initialGraph : Graph := mkGraph [] [].

Definition initialStore : GraphStore.t :=
  GraphStore.mk initialGraph ∅ [] 0%nat false normal [] [] None false [] [].

(** Default position of the vertex at [index]. *)
Definition defaultPosition (index : nat) : NodePosition :=
  mkPos (300 + (Z.of_nat index `mod` 4) * 200)
        (200 + (Z.of_nat index `div` 4) * 200).

(** The endpoint test that [addEdge], [updateEdgeWeight] and [removeEdge]
    of the store spell out inline. *)
Definition joins (a b : string) (e : Edge) : bool :=
  (bool_decide (u e = a) && bool_decide (v e = b))
  || (bool_decide (u e = b) && bool_decide (v e = a)).

Definition store_validate (s : GraphStore.t) : GraphStore.t :=
  set_validationErrors (validateGraph (graph s)) s.

Definition pushToHistory (s : GraphStore.t) : GraphStore.t :=
  if bool_decide (0 < length (steps s))%nat then s
  else
    let entry := GraphHistoryEntry.mk (cloneGraph (graph s)) (nodePositions s) in
    set_future [] (set_history (history s ++ [entry]) s).

Definition canUndo (s : GraphStore.t) : bool :=
  bool_decide (0 < length (history s))%nat
  && bool_decide (length (steps s) = 0%nat).

Definition canRedo (s : GraphStore.t) : bool :=
  bool_decide (0 < length (future s))%nat
  && bool_decide (length (steps s) = 0%nat).

Definition undo (s : GraphStore.t) : GraphStore.t :=
  if bool_decide (length (history s) = 0%nat)
     || bool_decide (0 < length (steps s))%nat
  then s
  else
    let currentState :=
      GraphHistoryEntry.mk (cloneGraph (graph s)) (nodePositions s) in
    match last (history s) with
    | None => s
    | Some previousState =>
        let newHistory := take (length (history s) - 1) (history s) in
        store_validate
          (GraphStore.mk (GraphHistoryEntry.graph previousState)
             (GraphHistoryEntry.nodePositions previousState)
             [] 0%nat (isPlaying s) (playSpeed s) (validationErrors s)
             [] None (edgeCreationMode s)
             newHistory (currentState :: future s))
    end.

Definition redo (s : GraphStore.t) : GraphStore.t :=
  if bool_decide (length (future s) = 0%nat)
     || bool_decide (0 < length (steps s))%nat
  then s
  else
    let currentState :=
      GraphHistoryEntry.mk (cloneGraph (graph s)) (nodePositions s) in
    match future s with
    | [] => s
    | nextState :: newFuture =>
        store_validate
          (GraphStore.mk (GraphHistoryEntry.graph nextState)
             (GraphHistoryEntry.nodePositions nextState)
             [] 0%nat (isPlaying s) (playSpeed s) (validationErrors s)
             [] None (edgeCreationMode s)
             (history s ++ [currentState]) newFuture)
    end.

(** Positions assigned by [setGraph] when none are supplied. *)
Definition defaultPositions (vs : list string) : gmap string NodePosition :=
  (foldl (λ acc a, (<[a := defaultPosition acc.2]> acc.1, S acc.2))
         (∅, 0%nat) vs).1.

Definition setGraph (g : Graph) (positions : option (gmap string NodePosition))
    (skipHistory : bool) (s : GraphStore.t) : GraphStore.t :=
  let newPositions := default (defaultPositions (vertices g)) positions in
  let s1 := GraphStore.mk (mkGraph (vertices g) (edges g)) newPositions
              [] 0%nat (isPlaying s) (playSpeed s) [] [] None false
              (history s) (future s) in
  let s2 := store_validate s1 in
  if skipHistory then s2 else pushToHistory s2.

Definition updateNodePosition (nodeId : string) (position : NodePosition)
    (skipHistory : bool) (s : GraphStore.t) : GraphStore.t :=
  set_nodePositions (<[nodeId := position]> (nodePositions s)) s.

Definition updateNodePositions (positions : gmap string NodePosition)
    (skipHistory : bool) (s : GraphStore.t) : GraphStore.t :=
  let s1 := set_nodePositions positions s in
  if skipHistory then s1 else pushToHistory s1.

(** [label || getNextVertexLabel(graph)]: an absent or empty label asks
    for a generated one, and generating sorts [graph.vertices], the array
    of the store's own graph object, in place. *)
Definition addVertex (label : option string) (s : GraphStore.t) : GraphStore.t :=
  let '(newLabel, g) :=
    match label with
    | Some (String c l) => (String c l, graph s)
    | _ => getNextVertexLabel (graph s)
    end in
  if bool_decide (newLabel ∈ vertices g) then set_graph g s
  else
    let newIndex := length (vertices g) in
    store_validate
      (set_currentStep 0%nat
         (set_steps []
            (set_nodePositions
               (<[newLabel := defaultPosition newIndex]> (nodePositions s))
               (set_graph (mkGraph (vertices g ++ [newLabel]) (edges g)) s)))).

Definition removeVertex (label : string) (s : GraphStore.t) : GraphStore.t :=
  let g := graph s in
  let nodePositions0 := nodePositions s in
  let s1 := pushToHistory s in
  let newPositions := base.delete label nodePositions0 in
  store_validate
    (set_selectedEdge None
       (set_selectedVertices []
          (set_currentStep 0%nat
             (set_steps []
                (set_nodePositions newPositions
                   (set_graph
                      (mkGraph
                         (List.filter (λ a, negb (bool_decide (a = label)))
                                      (vertices g))
                         (List.filter (λ e, negb (bool_decide (u e = label))
                                            && negb (bool_decide (v e = label)))
                                      (edges g)))
                      s1)))))).

Definition store_addEdge (a b : string) (wt : number) (s : GraphStore.t)
  : GraphStore.t :=
  let g := graph s in
  let exists_ := existsb (joins a b) (edges g) in
  if negb exists_ && negb (bool_decide (a = b)) then
    let s1 := pushToHistory s in
    store_validate
      (set_currentStep 0%nat
         (set_steps []
            (set_graph (mkGraph (vertices g) (edges g ++ [mkEdge a b wt])) s1)))
  else s.

Definition updateEdgeWeight (a b : string) (newWeight : number)
    (s : GraphStore.t) : GraphStore.t :=
  let g := graph s in
  let s1 := pushToHistory s in
  store_validate
    (set_currentStep 0%nat
       (set_steps []
          (set_graph
             (mkGraph (vertices g)
                (List.map (λ e, if joins a b e then mkEdge (u e) (v e) newWeight
                                else e) (edges g)))
             s1))).

Definition store_removeEdge (a b : string) (s : GraphStore.t) : GraphStore.t :=
  let g := graph s in
  let s1 := pushToHistory s in
  store_validate
    (set_currentStep 0%nat
       (set_steps []
          (set_graph
             (mkGraph (vertices g)
                (List.filter (λ e, negb (joins a b e)) (edges g)))
             s1))).

Definition clearGraph (s : GraphStore.t) : GraphStore.t :=
  GraphStore.mk initialGraph ∅ [] 0%nat (isPlaying s) (playSpeed s) [] [] None
    false [] [].

Definition runAlgorithm (s : GraphStore.t) : GraphStore.t :=
  if bool_decide (0 < length (validationErrors s))%nat then s
  else
    set_isPlaying false
      (set_currentStep 0%nat (set_steps (reverseDelete (graph s)) s)).

Definition nextStep (s : GraphStore.t) : GraphStore.t :=
  if bool_decide (Z.of_nat (currentStep s) < Z.of_nat (length (steps s)) - 1)%Z
  then set_currentStep (S (currentStep s)) s
  else s.

Definition previousStep (s : GraphStore.t) : GraphStore.t :=
  if bool_decide (0 < currentStep s)%nat
  then set_currentStep (currentStep s - 1)%nat s
  else s.

Definition goToStep (step : Z) (s : GraphStore.t) : GraphStore.t :=
  if bool_decide (0 ≤ step)%Z && bool_decide (step < Z.of_nat (length (steps s)))%Z
  then set_isPlaying false (set_currentStep (Z.to_nat step) s)
  else s.

Definition resetSteps (s : GraphStore.t) : GraphStore.t :=
  set_isPlaying false (set_currentStep 0%nat s).

Definition togglePlay (s : GraphStore.t) : GraphStore.t :=
  set_isPlaying (negb (isPlaying s)) s.

Definition setPlaySpeed (speed : PlaySpeed) (s : GraphStore.t) : GraphStore.t :=
  set_playSpeed speed s.

Definition setSelectedVertices (vs : list string) (s : GraphStore.t)
  : GraphStore.t :=
  set_selectedVertices vs s.

Definition setSelectedEdge (e : option (string * string)) (s : GraphStore.t)
  : GraphStore.t :=
  set_selectedEdge e s.

Definition toggleEdgeCreationMode (s : GraphStore.t) : GraphStore.t :=
  set_selectedEdge None
    (set_selectedVertices []
       (set_edgeCreationMode (negb (edgeCreationMode s)) s)).

(** [applyTidyLayout]; [newPositions] stands for what
    [calculateTidyLayout(graph)] of [lib/layout.ts] returns. *)
Definition applyTidyLayout (newPositions : gmap string NodePosition)
    (s : GraphStore.t) : GraphStore.t :=
  if bool_decide (length (vertices (graph s)) = 0%nat) then s
  else set_nodePositions newPositions (pushToHistory s).

(** The actions of the store, with their arguments. *)
Inductive Action : Type :=
  | ASetGraph (g : Graph) (positions : option (gmap string NodePosition))
              (skipHistory : bool)
  | AUpdateNodePosition (nodeId : string) (position : NodePosition)
                        (skipHistory : bool)
  | AUpdateNodePositions (positions : gmap string NodePosition)
                         (skipHistory : bool)
  | AAddVertex (label : option string)
  | ARemoveVertex (label : string)
  | AAddEdge (a b : string) (wt : number)
  | AUpdateEdgeWeight (a b : string) (newWeight : number)
  | ARemoveEdge (a b : string)
  | AClearGraph
  | AValidate
  | ARunAlgorithm
  | ANextStep
  | APreviousStep
  | AGoToStep (step : Z)
  | AResetSteps
  | ATogglePlay
  | ASetPlaySpeed (speed : PlaySpeed)
  | ASetSelectedVertices (vs : list string)
  | ASetSelectedEdge (e : option (string * string))
  | AToggleEdgeCreationMode
  | AApplyTidyLayout (newPositions : gmap string NodePosition)
  | AUndo
  | ARedo
  | APushToHistory.

Definition perform (a : Action) (s : GraphStore.t) : GraphStore.t :=
  match a with
  | ASetGraph g positions skipHistory => setGraph g positions skipHistory s
  | AUpdateNodePosition nodeId position skipHistory =>
      updateNodePosition nodeId position skipHistory s
  | AUpdateNodePositions positions skipHistory =>
      updateNodePositions positions skipHistory s
  | AAddVertex label => addVertex label s
  | ARemoveVertex label => removeVertex label s
  | AAddEdge a b wt => store_addEdge a b wt s
  | AUpdateEdgeWeight a b newWeight => updateEdgeWeight a b newWeight s
  | ARemoveEdge a b => store_removeEdge a b s
  | AClearGraph => clearGraph s
  | AValidate => store_validate s
  | ARunAlgorithm => runAlgorithm s
  | ANextStep => nextStep s
  | APreviousStep => previousStep s
  | AGoToStep step => goToStep step s
  | AResetSteps => resetSteps s
  | ATogglePlay => togglePlay s
  | ASetPlaySpeed speed => setPlaySpeed speed s
  | ASetSelectedVertices vs => setSelectedVertices vs s
  | ASetSelectedEdge e => setSelectedEdge e s
  | AToggleEdgeCreationMode => toggleEdgeCreationMode s
  | AApplyTidyLayout newPositions => applyTidyLayout newPositions s
  | AUndo => undo s
  | ARedo => redo s
  | APushToHistory => pushToHistory s
  end.

(** The states a session can be in: the initial store, then any actions. *)
Inductive reachable : GraphStore.t → Prop :=
  | reachable_init : reachable initialStore
  | reachable_step a s : reachable s → reachable (perform a s).

(** A trace is active when [steps] is non-empty. *)
Definition traceActive (s : GraphStore.t) : Prop := steps s ≠ [].

(** ** Vocabulary of the properties *)

(** Two labels are adjacent when some edge of the list joins them, in
    either orientation. *)
Definition adjacent (es : list Edge) (a b : string) : Prop :=
  ∃ e, e ∈ es ∧ ((u e = a ∧ v e = b) ∨ (u e = b ∧ v e = a)).

(** Reachability along edges. *)
Definition reach (es : list Edge) : relation string := rtc (adjacent es).

(** Graph-theoretic connectivity: any two vertices are joined by a path. *)
Definition Connected (g : Graph) : Prop :=
  ∀ a b, a ∈ vertices g → b ∈ vertices g → reach (edges g) a b.

(** No edge refers to a label outside [vertices]. *)
Definition noDangling (g : Graph) : Prop :=
  ∀ e, e ∈ edges g → u e ∈ vertices g ∧ v e ∈ vertices g.

(** The edges are pairwise different under [edgesEqual]. *)
Inductive distinctEdges : list Edge → Prop :=
  | distinct_nil : distinctEdges []
  | distinct_cons e es :
      (∀ e', e' ∈ es → edgesEqual e' e = false) →
      distinctEdges es → distinctEdges (e :: es).

(** An edge list built by only ever joining two labels that were not yet
    joined: a forest. *)
Inductive forest : list Edge → Prop :=
  | forest_nil : forest []
  | forest_cons e es :
      forest es → ¬ reach es (u e) (v e) → forest (e :: es).

(** What the loop of [reverseDelete] maintains, [processed] being the
    sorted edges it has been through: the working graph keeps the
    vertices, keeps a sub-sequence of the edges, stays connected, every
    processed edge still in it is one whose removal disconnects it, no
    [complete] step has been pushed, the last pushed step shows the
    working graph, and the step counter is the number of steps. *)
Definition rd_inv (G : Graph) (processed : list Edge) (st : rd_state) : Prop :=
  vertices (currentGraph st) = vertices G
  ∧ edges (currentGraph st) `sublist_of` edges G
  ∧ isConnected (currentGraph st) = true
  ∧ (∀ e, e ∈ processed → e ∈ edges (currentGraph st) →
          isConnected (removeEdge (currentGraph st) e) = false)
  ∧ Forall (λ s, Step.type s ≠ complete) (rd_steps st)
  ∧ Step.snapshot <$> last (rd_steps st) = Some (currentGraph st)
  ∧ rd_stepNumber st = length (rd_steps st).

(** What the traversal of [isConnected] can step along: out of a label
    that has an adjacency list, to any label pushed onto that list. *)
Definition dfs_edge (adjList : gmap string (list string)) (a b : string) : Prop :=
  b ∈ default [] (adjList !! a).

(** Every label the traversal can meet. *)
Definition labelsOf (g : Graph) : gset string :=
  list_to_set (vertices g) ∪ list_to_set (flat_map (λ e, [u e; v e]) (edges g)).

(** The label generator as the specification words it: only the
    single-character labels are sorted, the letter after the greatest of
    them is returned while one is left in A-Z, and otherwise the label is
    [A] followed by the number of vertices. *)
Definition isSingleChar (l : string) : bool :=
  match l with String _ EmptyString => true | _ => false end.

Definition spec_nextVertexLabel (g : Graph) : string :=
  match vertices g with
  | [] => "A"
  | _ =>
      let fallback := "A" +:+ pretty (length (vertices g)) in
      match last (str_sort (List.filter isSingleChar (vertices g))) with
      | Some (String c EmptyString) =>
          if bool_decide (nat_of_ascii "A"%char ≤ S (nat_of_ascii c))%nat
             && bool_decide (S (nat_of_ascii c) ≤ nat_of_ascii "Z"%char)%nat
          then String (ascii_of_nat (S (nat_of_ascii c))) EmptyString
          else fallback
      | _ => fallback
      end
  end.

(** What the generator answers when the greatest label is [m] and there
    are [n] labels. *)
Definition labelAfter (m : string) (n : nat) : string :=
  match m with
  | String c EmptyString =>
      if bool_decide (S (nat_of_ascii c) ≤ nat_of_ascii "Z"%char)%nat
      then String (ascii_of_nat (S (nat_of_ascii c))) EmptyString
      else "A" +:+ pretty n
  | _ => "A" +:+ pretty n
  end.

(** The order [sort()] puts labels in. *)
Definition str_le (a b : string) : Prop := String.leb a b = true.

(** Example graphs. *)
Definition twoIsolated : Graph := mkGraph ["A"; "B"] [].

Definition dashGraph : Graph :=
  mkGraph ["A-B"; "C"; "A"; "B-C"]
          [mkEdge "A-B" "C" (Num 1); mkEdge "A" "B-C" (Num 2)].

Definition danglingGraph : Graph := mkGraph ["A"; "B"] [mkEdge "A" "C" (Num 1)].

Definition danglingGraph_swapped : Graph :=
  mkGraph ["B"; "A"] [mkEdge "A" "C" (Num 1)].

Definition noVertexGraph : Graph := mkGraph [] [mkEdge "A" "B" (Num 1)].

(** Example sessions: an edge added between two vertices and undone
    again, and two vertices added out of alphabetical order. *)
Definition session_undone : GraphStore.t :=
  undo (store_addEdge "A" "B" (Num 1)
          (addVertex (Some "B") (addVertex (Some "A") initialStore))).

Definition session_BA : GraphStore.t :=
  addVertex (Some "A") (addVertex (Some "B") initialStore).

(** ** Vocabulary of the further properties *)

(** The label contains no [-], the character the duplicate scan uses as
    separator. *)
Fixpoint dashFree (l : string) : bool :=
  match l with
  | EmptyString => true
  | String c l' => negb (bool_decide (c = "-"%char)) && dashFree l'
  end.

(** A graph as the editor means it: no vertex listed twice, no two edges
    on the same pair, no loop, every weight a number that is not
    negative, every endpoint a vertex, and any two vertices joined. *)
Definition wellFormed (g : Graph) : Prop :=
  vertices g ≠ []
  ∧ NoDup (vertices g)
  ∧ distinctEdges (edges g)
  ∧ (∀ e, e ∈ edges g → u e ≠ v e)
  ∧ (∀ e, e ∈ edges g → ∃ z, w e = Num z ∧ (0 ≤ z)%Z)
  ∧ noDangling g
  ∧ Connected g.

(** The weight of an edge as an integer, [0] for NaN. *)
Definition weightZ (e : Edge) : Z :=
  match w e with Num z => z | NaN => 0 end.


(** Edges in the order [sortEdges] aims at: no later edge is heavier. *)
Definition heavierFirst (e1 e2 : Edge) : Prop := (weightZ e2 ≤ weightZ e1)%Z.

(** What the editing actions keep: no vertex twice, no two edges on the
    same pair, no loop. *)
Definition simpleGraph (g : Graph) : Prop :=
  NoDup (vertices g)
  ∧ distinctEdges (edges g)
  ∧ (∀ e, e ∈ edges g → u e ≠ v e).

(** The cursor points into the trace, or is [0] when there is none. *)
Definition cursorInRange (s : GraphStore.t) : Prop :=
  currentStep s = 0%nat ∨ (currentStep s < length (steps s))%nat.

(** The errors on display are those of the graph on display; a fresh or
    cleared session shows none for its empty graph. *)
Definition errorsCurrent (s : GraphStore.t) : Prop :=
  validationErrors s = validateGraph (graph s)
  ∨ (graph s = initialGraph ∧ validationErrors s = []).

(** The trace on display, when there is one, is the one [reverseDelete]
    computes for a graph without validation errors that has the edges of
    the graph on display and its vertices up to order. *)
Definition traceCurrent (s : GraphStore.t) : Prop :=
  steps s = []
  ∨ ∃ g0, steps s = reverseDelete g0 ∧ validateGraph g0 = []
          ∧ vertices g0 ≡ₚ vertices (graph s) ∧ edges g0 = edges (graph s).


(** Counting the steps of one kind. *)
Definition countType (ty : StepType) (steps : list Step.t) : nat :=
  length (List.filter (λ s, bool_decide (Step.type s = ty)) steps).

(** The first [n] auto-generated vertices of a fresh session. *)
Fixpoint autoVertices (n : nat) : GraphStore.t :=
  match n with
  | O => initialStore
  | S n' => addVertex None (autoVertices n')
  end.

(** * Properties *)

(** ** Copies are equal values *)

Lemma cloneGraph_id g : cloneGraph g = g.
Proof.
  destruct g as [vs es]. unfold cloneGraph; simpl. f_equal.
  induction es as [|[a b c] es IH]; simpl; [done|]. by rewrite IH.
Qed.

Example isConnected_triangle : isConnected triangle = true.
Proof. vm_compute. reflexivity. Qed.

Example isConnected_dangling :
  isConnected danglingGraph = true ∧ isConnected danglingGraph_swapped = false.
Proof. vm_compute. done. Qed.

Example next_label_examples :
  (getNextVertexLabel (mkGraph ["A"; "AB"] [])).1 = "A2"
  ∧ spec_nextVertexLabel (mkGraph ["A"; "AB"] []) = "B"
  ∧ (getNextVertexLabel (mkGraph ["B"; "A"] [])) = ("C", mkGraph ["A"; "B"] []).
Proof. vm_compute. done. Qed.

Example validate_examples :
  validateGraph twoIsolated = [disconnectedError]
  ∧ validateGraph noVertexGraph = [emptyGraphError]
  ∧ List.map ValidationError.type (validateGraph dashGraph) = [duplicate_edge].
Proof. vm_compute. done. Qed.

(** ** Lists and strings *)

Lemma elem_of_List_filter {A} (f : A → bool) (l : list A) (a : A) :
  a ∈ List.filter f l ↔ a ∈ l ∧ f a = true.
Proof. rewrite !list_elem_of_In. apply filter_In. Qed.

Lemma ascii_compare_lt (a b : ascii) :
  Ascii.compare a b = Lt ↔ (N_of_ascii a < N_of_ascii b)%N.
Proof. unfold Ascii.compare. apply N.compare_lt_iff. Qed.

Lemma string_compare_lt_trans (a b c : string) :
  String.compare a b = Lt → String.compare b c = Lt → String.compare a c = Lt.
Proof.
  revert b c. induction a as [|ca a IH]; intros [|cb b] [|cc c]; simpl; try done.
  destruct (Ascii.compare ca cb) eqn:E1; try done;
    destruct (Ascii.compare cb cc) eqn:E2; try done.
  - apply Ascii.compare_eq_iff in E1, E2. subst.
    replace (Ascii.compare cc cc) with Eq
      by (symmetry; unfold Ascii.compare; apply N.compare_refl).
    apply IH.
  - apply Ascii.compare_eq_iff in E1. subst. by rewrite E2.
  - apply Ascii.compare_eq_iff in E2. subst. by rewrite E1.
  - rewrite ascii_compare_lt in E1, E2.
    assert (Ascii.compare ca cc = Lt) as -> by (apply ascii_compare_lt; lia).
    done.
Qed.

Lemma string_leb_refl (a : string) : String.leb a a = true.
Proof.
  unfold String.leb.
  destruct (String.compare a a) eqn:E; try done.
  pose proof (String.compare_antisym a a) as H. rewrite E in H. done.
Qed.

Lemma string_leb_trans (a b c : string) :
  String.leb a b = true → String.leb b c = true → String.leb a c = true.
Proof.
  unfold String.leb.
  destruct (String.compare a b) eqn:E1; try done;
    destruct (String.compare b c) eqn:E2; try done; intros _ _.
  - apply String.compare_eq_iff in E1, E2. subst. apply string_leb_refl.
  - apply String.compare_eq_iff in E1. subst. by rewrite E2.
  - apply String.compare_eq_iff in E2. subst. by rewrite E1.
  - by rewrite (string_compare_lt_trans _ _ _ E1 E2).
Qed.

Lemma string_ltb_leb (a b : string) : String.ltb a b = false → String.leb b a = true.
Proof.
  unfold String.ltb, String.leb. rewrite (String.compare_antisym a b).
  destruct (String.compare b a); simpl; done.
Qed.

Lemma string_ltb_leb_true (a b : string) : String.ltb a b = true → String.leb a b = true.
Proof. unfold String.ltb, String.leb. destruct (String.compare a b); done. Qed.

(** [str_sort] rearranges, and leaves the greatest label last. *)

Lemma str_insert_perm a l : str_insert a l ≡ₚ a :: l.
Proof.
  induction l as [|b l IH]; simpl; [done|].
  destruct (String.ltb b a); [|done].
  rewrite IH. apply Permutation_swap.
Qed.

Lemma str_sort_perm l : str_sort l ≡ₚ l.
Proof.
  induction l as [|a l IH]; simpl; [done|].
  by rewrite str_insert_perm, IH.
Qed.

Lemma str_sort_length l : length (str_sort l) = length l.
Proof. by rewrite str_sort_perm. Qed.

Lemma str_insert_sorted a l :
  StronglySorted str_le l → StronglySorted str_le (str_insert a l).
Proof.
  induction 1 as [|b l Hs IH Hb]; simpl.
  - repeat constructor.
  - destruct (String.ltb b a) eqn:E.
    + constructor; [done|].
      rewrite str_insert_perm. constructor; [|done].
      by apply string_ltb_leb_true.
    + apply string_ltb_leb in E.
      constructor; [by constructor|].
      constructor; [done|].
      eapply Forall_impl; [exact Hb|].
      intros c Hc. by eapply string_leb_trans.
Qed.

Lemma str_sort_sorted l : StronglySorted str_le (str_sort l).
Proof.
  induction l as [|a l IH]; simpl; [constructor|]. by apply str_insert_sorted.
Qed.

Lemma sorted_last_max l m :
  StronglySorted str_le l → last l = Some m → ∀ a, a ∈ l → str_le a m.
Proof.
  induction 1 as [|b l Hs IH Hb]; [done|].
  intros Hlast a Ha. destruct l as [|c l].
  - simpl in Hlast. injection Hlast as <-.
    apply list_elem_of_singleton in Ha as ->. apply string_leb_refl.
  - assert (last (c :: l) = Some m) as Hl by done.
    apply elem_of_cons in Ha as [->|Ha]; [|by apply IH].
    rewrite Forall_forall in Hb. apply Hb.
    rewrite last_Some in Hl. destruct Hl as [l' ->].
    apply elem_of_app. right. apply list_elem_of_singleton. done.
Qed.

(** The label [getNextVertexLabel] looks at is the greatest of all the
    labels. *)
Lemma str_sort_last_max l m :
  m ∈ l → (∀ a, a ∈ l → str_le a m) → last (str_sort l) = Some m.
Proof.
  intros Hm Hmax.
  destruct (last (str_sort l)) as [m'|] eqn:E.
  - f_equal. apply String.leb_antisym.
    + apply Hmax. rewrite <- (str_sort_perm l).
      rewrite last_Some in E. destruct E as [l' ->].
      apply elem_of_app. right. by apply list_elem_of_singleton.
    + eapply sorted_last_max; [apply str_sort_sorted|done|].
      by rewrite str_sort_perm.
  - apply last_None in E. rewrite <- (str_sort_perm l), E in Hm.
    by apply elem_of_nil in Hm.
Qed.

(** ** The validation scans *)

Lemma dupScan_types (es : list Edge) (st : gset string * list ValidationError.t) :
  Forall (λ err, ValidationError.type err = duplicate_edge) st.2 →
  Forall (λ err, ValidationError.type err = duplicate_edge)
         (foldl dupScan_step st es).2.
Proof.
  revert st. induction es as [|e es IH]; intros st Hst; simpl; [done|].
  apply IH. unfold dupScan_step.
  destruct (_ || _); simpl; [|done].
  apply Forall_app. split; [done|]. by repeat constructor.
Qed.

Lemma duplicateScan_types es :
  Forall (λ err, ValidationError.type err = duplicate_edge) (duplicateScan es).
Proof. apply dupScan_types. constructor. Qed.

Lemma selfLoopScan_types es :
  Forall (λ err, ValidationError.type err = self_loop) (selfLoopScan es).
Proof.
  induction es as [|e es IH]; simpl; [constructor|].
  case_bool_decide; simpl; [constructor|]; done.
Qed.

Lemma weightScan_types es :
  Forall (λ err, ValidationError.type err = missing_weight
                 ∨ ValidationError.type err = negative_weight) (weightScan es).
Proof.
  induction es as [|e es IH]; simpl; [constructor|].
  destruct (isNaN (w e)); simpl; [constructor; auto|].
  destruct (num_neg (w e)); simpl; [constructor; auto|]. done.
Qed.

Lemma danglingScan_types vs es :
  Forall (λ err, ValidationError.type err = multi_edge) (danglingScan vs es).
Proof.
  induction es as [|e es IH]; simpl; [constructor|].
  repeat case_bool_decide; simpl; repeat constructor; done.
Qed.

Lemma structuralErrors_not_disconnected g :
  Forall (λ err, ValidationError.type err ≠ disconnected) (structuralErrors g).
Proof.
  unfold structuralErrors. rewrite !Forall_app. repeat split.
  - eapply Forall_impl; [apply duplicateScan_types|]. by intros ? ->.
  - eapply Forall_impl; [apply selfLoopScan_types|]. by intros ? ->.
  - eapply Forall_impl; [apply weightScan_types|]. by intros ? [-> | ->].
  - eapply Forall_impl; [apply danglingScan_types|]. by intros ? ->.
Qed.

Lemma filter_none {A} (P : A → Prop) `{∀ a, Decision (P a)} (l : list A) :
  Forall (λ a, ¬ P a) l → filter P l = [].
Proof.
  induction 1 as [|a l Ha _ IH]; [done|]. by rewrite filter_cons_False.
Qed.

Lemma filter_all {A} (P : A → Prop) `{∀ a, Decision (P a)} (l : list A) :
  Forall P l → filter P l = l.
Proof.
  induction 1 as [|a l Ha _ IH]; [done|]. by rewrite filter_cons_True, IH.
Qed.

Lemma validateGraph_nonempty g :
  vertices g ≠ [] →
  validateGraph g =
    if bool_decide (structuralErrors g = []) && negb (isConnected g)
    then [disconnectedError] else structuralErrors g.
Proof.
  intros Hne. unfold validateGraph.
  rewrite bool_decide_eq_false_2 by (by destruct (vertices g)).
  destruct (structuralErrors g) as [|err errs] eqn:E; simpl; [|done].
  by destruct (isConnected g).
Qed.

(** One error per missing endpoint, written without the two [if]s. *)
Lemma danglingScan_endpoints vs es :
  danglingScan vs es =
  flat_map (λ e, danglingError e <$> filter (λ a, a ∉ vs) [u e; v e]) es.
Proof.
  induction es as [|e es IH]; simpl; [done|]. rewrite <- IH. f_equal.
  rewrite !filter_cons, filter_nil.
  repeat case_bool_decide; repeat case_decide; done.
Qed.

(** ** C4 *)

(** C4. On a graph with at least one vertex, [validateGraph] runs the
    connectivity check only when the duplicate-edge, self-loop, weight and
    dangling-reference scans pushed nothing: with a scan error present the
    result is exactly the scan errors, none of which is [disconnected];
    with none and a graph that is not connected the result is the single
    [disconnected] error; with none and a connected graph it is empty. *)
Theorem validate_connectivity_gated (g : Graph) :
  vertices g ≠ [] →
  (structuralErrors g ≠ [] →
     validateGraph g = structuralErrors g
     ∧ Forall (λ err, ValidationError.type err ≠ disconnected) (validateGraph g))
  ∧ (structuralErrors g = [] → isConnected g = false →
     validateGraph g = [disconnectedError])
  ∧ (structuralErrors g = [] → isConnected g = true → validateGraph g = []).
Proof.
  intros Hne. rewrite (validateGraph_nonempty g Hne). repeat split.
  - by rewrite bool_decide_eq_false_2.
  - rewrite bool_decide_eq_false_2 by done. simpl.
    apply structuralErrors_not_disconnected.
  - intros -> ->. done.
  - intros -> ->. done.
Qed.

(** Two isolated vertices: no scan error, not connected, exactly one
    [disconnected] error. *)
Lemma validate_connectivity_gated_witness :
  vertices twoIsolated ≠ []
  ∧ structuralErrors twoIsolated = []
  ∧ isConnected twoIsolated = false
  ∧ validateGraph twoIsolated = [disconnectedError].
Proof.
  assert (vertices twoIsolated ≠ []) as Hne by (simpl; congruence).
  assert (structuralErrors twoIsolated = []) as Hs by reflexivity.
  assert (isConnected twoIsolated = false) as Hc by (vm_compute; reflexivity).
  split; [exact Hne|]. split; [exact Hs|]. split; [exact Hc|].
  exact (proj1 (proj2 (validate_connectivity_gated twoIsolated Hne)) Hs Hc).
Defined.

(** ** C9 *)

(** C9, as amended.  On a graph with at least one vertex, the errors of
    kind [multi_edge] (the tag the code gives a dangling reference) that
    [validateGraph] returns are, in order, one for every edge and every
    endpoint of it that is missing from [vertices], each carrying that
    edge and naming that endpoint.  On a graph with no vertex
    [validateGraph] returns the one [disconnected] error of the
    empty-vertex check and nothing else, whatever the edges. *)
Theorem validate_dangling_references (g : Graph) :
  (vertices g ≠ [] →
   filter (λ err, ValidationError.type err = multi_edge) (validateGraph g)
   = flat_map (λ e, danglingError e <$> filter (λ a, a ∉ vertices g) [u e; v e])
              (edges g))
  ∧ (vertices g = [] →
     validateGraph g = [emptyGraphError]
     ∧ ValidationError.type emptyGraphError = disconnected).
Proof.
  split; [|intros Hv; unfold validateGraph; by rewrite Hv].
  intros Hne. rewrite <- danglingScan_endpoints.
  assert (filter (λ err, ValidationError.type err = multi_edge)
                 (structuralErrors g) = danglingScan (vertices g) (edges g)) as Hs.
  { unfold structuralErrors. rewrite !filter_app.
    rewrite (filter_none _ (duplicateScan _)), (filter_none _ (selfLoopScan _)),
      (filter_none _ (weightScan _)), (filter_all _ (danglingScan _ _)); [done|..].
    - apply danglingScan_types.
    - eapply Forall_impl; [apply weightScan_types|]. intros ? [H|H]; rewrite H; done.
    - eapply Forall_impl; [apply selfLoopScan_types|]. intros ? H; rewrite H; done.
    - eapply Forall_impl; [apply duplicateScan_types|]. intros ? H; rewrite H; done. }
  rewrite (validateGraph_nonempty g Hne).
  destruct (_ && _) eqn:E; [|done].
  apply andb_prop in E as [E _]. apply bool_decide_eq_true in E.
  rewrite E in Hs. rewrite <- Hs. done.
Qed.

Lemma validate_dangling_references_witness :
  vertices danglingGraph ≠ []
  ∧ filter (λ err, ValidationError.type err = multi_edge) (validateGraph danglingGraph)
    = [danglingError (mkEdge "A" "C" (Num 1)) "C"]
  ∧ vertices noVertexGraph = []
  ∧ validateGraph noVertexGraph = [emptyGraphError].
Proof.
  assert (vertices danglingGraph ≠ []) as Hne by (simpl; congruence).
  assert (vertices noVertexGraph = []) as He by reflexivity.
  split; [assumption|]. split; [|split; [exact He|]].
  - rewrite (proj1 (validate_dangling_references danglingGraph) Hne). reflexivity.
  - exact (proj1 (proj2 (validate_dangling_references noVertexGraph) He)).
Defined.

(** C9 as stated fails where the graph has no vertex: the only error is
    the one of the empty-vertex check, and the missing endpoints of the
    edge are not reported. *)
Lemma validate_dangling_counterexample :
  mkEdge "A" "B" (Num 1) ∈ edges noVertexGraph
  ∧ (u (mkEdge "A" "B" (Num 1)) ∉ vertices noVertexGraph)
  ∧ validateGraph noVertexGraph = [emptyGraphError]
  ∧ ¬ (∃ err, err ∈ validateGraph noVertexGraph
              ∧ ValidationError.type err = multi_edge).
Proof.
  repeat split.
  - simpl. apply list_elem_of_singleton. done.
  - simpl. apply not_elem_of_nil.
  - intros [err [Hin Hty]].
    change (validateGraph noVertexGraph) with [emptyGraphError] in Hin.
    apply list_elem_of_singleton in Hin. subst err. discriminate Hty.
Qed.

(** ** C3 *)

(** C3. On the triangle [A-B:3, B-C:4, A-C:5] the trace opens on [A-C],
    considers and deletes [A-C], considers and keeps [B-C], considers and
    keeps [A-B], and completes; the graph left is [A-B:3, B-C:4], of total
    weight 7. *)
Theorem reverseDelete_triangle :
  List.map (λ s, (Step.type s, Step.edge s)) (reverseDelete triangle)
  = [ (consider, mkEdge "A" "C" (Num 5));
      (consider, mkEdge "A" "C" (Num 5)); (delete, mkEdge "A" "C" (Num 5));
      (consider, mkEdge "B" "C" (Num 4)); (keep, mkEdge "B" "C" (Num 4));
      (consider, mkEdge "A" "B" (Num 3)); (keep, mkEdge "A" "B" (Num 3));
      (complete, mkEdge "A" "B" (Num 3)) ]
  ∧ List.map Step.stepNumber (reverseDelete triangle)
    = [0; 1; 2; 3; 4; 5; 6; 7]%nat
  ∧ Step.snapshot <$> last (reverseDelete triangle)
    = Some (mkGraph ["A"; "B"; "C"]
                    [mkEdge "A" "B" (Num 3); mkEdge "B" "C" (Num 4)])
  ∧ Step.snapshot <$> lastNonComplete (reverseDelete triangle)
    = Some (mkGraph ["A"; "B"; "C"]
                    [mkEdge "A" "B" (Num 3); mkEdge "B" "C" (Num 4)])
  ∧ getTotalWeight (mkGraph ["A"; "B"; "C"]
                            [mkEdge "A" "B" (Num 3); mkEdge "B" "C" (Num 4)])
    = Num 7
  ∧ Step.explanation <$> last (reverseDelete triangle)
    = Some "Algorithm complete! The MST has 2 edges with total weight 7.".
Proof. vm_compute. repeat split. Qed.

(** ** C10 *)

Lemma edgesEqual_refl e : edgesEqual e e = true.
Proof. unfold edgesEqual. by rewrite !bool_decide_eq_true_2 by done. Qed.

(** C10. The edges of [dashGraph] are pairwise different under
    [edgesEqual], yet [validateGraph] reports its second edge as a
    duplicate: both edges have the key [A-B-C]. *)
Theorem duplicate_key_collision :
  ∃ g, distinctEdges (edges g)
       ∧ edge_label (mkEdge "A-B" "C" (Num 1)) = edge_label (mkEdge "A" "B-C" (Num 2))
       ∧ validateGraph g
         = [mkError duplicate_edge "Duplicate edge found: A-B-C"
                    (Some (mkEdge "A" "B-C" (Num 2)))].
Proof.
  exists dashGraph. split; [|split; vm_compute; reflexivity].
  simpl. constructor.
  - intros e' He'. apply list_elem_of_singleton in He' as ->. reflexivity.
  - constructor; [|constructor]. intros e' He'. by apply elem_of_nil in He'.
Qed.

(** ** The history stacks *)

Lemma pushToHistory_idle s :
  steps s = [] →
  history (pushToHistory s)
  = history s ++ [GraphHistoryEntry.mk (graph s) (nodePositions s)]
  ∧ future (pushToHistory s) = []
  ∧ graph (pushToHistory s) = graph s
  ∧ nodePositions (pushToHistory s) = nodePositions s.
Proof.
  intros Hs. unfold pushToHistory. rewrite Hs, cloneGraph_id. simpl. done.
Qed.

Lemma pushToHistory_active s : steps s ≠ [] → pushToHistory s = s.
Proof.
  intros Hs. unfold pushToHistory.
  rewrite bool_decide_eq_true_2; [done|]. destruct (steps s); simpl; [done|lia].
Qed.

(** [addVertex] never touches either stack. *)
Lemma addVertex_stacks label s :
  history (addVertex label s) = history s ∧ future (addVertex label s) = future s.
Proof.
  unfold addVertex.
  destruct (match label with Some (String c l) => _ | _ => _ end) as [newLabel g].
  case_bool_decide; done.
Qed.

(** The four mutations that do go through [pushToHistory]. *)
Lemma removeVertex_stacks label s :
  history (removeVertex label s) = history (pushToHistory s)
  ∧ future (removeVertex label s) = future (pushToHistory s).
Proof. done. Qed.

Lemma store_addEdge_stacks a b wt s :
  existsb (joins a b) (edges (graph s)) = false → a ≠ b →
  history (store_addEdge a b wt s) = history (pushToHistory s)
  ∧ future (store_addEdge a b wt s) = future (pushToHistory s).
Proof.
  intros He Hab. unfold store_addEdge.
  rewrite He, bool_decide_eq_false_2 by done. done.
Qed.

Lemma updateEdgeWeight_stacks a b wt s :
  history (updateEdgeWeight a b wt s) = history (pushToHistory s)
  ∧ future (updateEdgeWeight a b wt s) = future (pushToHistory s).
Proof. done. Qed.

Lemma store_removeEdge_stacks a b s :
  history (store_removeEdge a b s) = history (pushToHistory s)
  ∧ future (store_removeEdge a b s) = future (pushToHistory s).
Proof. done. Qed.

(** With no trace active, each of the four pushes a copy of the graph and
    positions it starts from and empties the redo stack; with a trace
    active none of them touches the stacks. *)
Lemma mutations_push_when_idle s label a b wt :
  steps s = [] →
  let entry := GraphHistoryEntry.mk (graph s) (nodePositions s) in
  (history (removeVertex label s) = history s ++ [entry]
   ∧ future (removeVertex label s) = [])
  ∧ (existsb (joins a b) (edges (graph s)) = false → a ≠ b →
     history (store_addEdge a b wt s) = history s ++ [entry]
     ∧ future (store_addEdge a b wt s) = [])
  ∧ (history (updateEdgeWeight a b wt s) = history s ++ [entry]
     ∧ future (updateEdgeWeight a b wt s) = [])
  ∧ (history (store_removeEdge a b s) = history s ++ [entry]
     ∧ future (store_removeEdge a b s) = []).
Proof.
  intros Hs entry. destruct (pushToHistory_idle s Hs) as (Hh & Hf & _).
  split; [|split; [|split]].
  - destruct (removeVertex_stacks label s) as [-> ->]. done.
  - intros He Hab. destruct (store_addEdge_stacks a b wt s He Hab) as [-> ->]. done.
  - destruct (updateEdgeWeight_stacks a b wt s) as [-> ->]. done.
  - destruct (store_removeEdge_stacks a b s) as [-> ->]. done.
Qed.

Lemma mutations_keep_stacks_when_active s label a b wt :
  steps s ≠ [] →
  (history (removeVertex label s) = history s
   ∧ future (removeVertex label s) = future s)
  ∧ (history (store_addEdge a b wt s) = history s
     ∧ future (store_addEdge a b wt s) = future s)
  ∧ (history (updateEdgeWeight a b wt s) = history s
     ∧ future (updateEdgeWeight a b wt s) = future s)
  ∧ (history (store_removeEdge a b s) = history s
     ∧ future (store_removeEdge a b s) = future s)
  ∧ (history (addVertex (Some label) s) = history s
     ∧ future (addVertex (Some label) s) = future s).
Proof.
  intros Hs. pose proof (pushToHistory_active s Hs) as Hp.
  split; [|split; [|split; [|split]]].
  - destruct (removeVertex_stacks label s) as [-> ->]. by rewrite Hp.
  - unfold store_addEdge. destruct (_ && _); [|done]. simpl. by rewrite Hp.
  - destruct (updateEdgeWeight_stacks a b wt s) as [-> ->]. by rewrite Hp.
  - destruct (store_removeEdge_stacks a b s) as [-> ->]. by rewrite Hp.
  - apply addVertex_stacks.
Qed.

(** ** C2 *)

(** C2 on [addVertex].  In a session with no active trace, an empty undo
    stack and one entry on the redo stack, adding the fresh vertex [C]
    changes the graph, pushes nothing onto the undo stack and leaves the
    redo stack as it was. *)
Theorem addVertex_skips_history :
  steps session_undone = []
  ∧ history session_undone = []
  ∧ length (future session_undone) = 1%nat
  ∧ vertices (graph session_undone) = ["A"; "B"]
  ∧ vertices (graph (addVertex (Some "C") session_undone)) = ["A"; "B"; "C"]
  ∧ history (addVertex (Some "C") session_undone) = []
  ∧ future (addVertex (Some "C") session_undone) = future session_undone.
Proof. vm_compute. repeat split. Qed.

(** ** C5 *)

(** C5. With a non-empty undo stack and no active trace, [undo] followed
    at once by [redo] gives back the graph and the node positions, and
    both stacks, as they were. *)
Theorem undo_then_redo_restores (s : GraphStore.t) :
  history s ≠ [] → steps s = [] →
  graph (redo (undo s)) = graph s
  ∧ nodePositions (redo (undo s)) = nodePositions s
  ∧ history (redo (undo s)) = history s
  ∧ future (redo (undo s)) = future s.
Proof.
  destruct s as [g np st cs ip ps ve sv se ecm h f]. simpl.
  intros Hh ->. destruct h as [|[pg pnp] h _] using rev_ind; [done|].
  unfold undo. simpl.
  rewrite bool_decide_eq_false_2 by (rewrite length_app; simpl; lia).
  simpl. rewrite last_snoc.
  unfold redo, store_validate. simpl.
  rewrite !cloneGraph_id.
  replace (length (h ++ [_]) - 1)%nat with (length h)
    by (rewrite length_app; simpl; lia).
  rewrite take_app_length. done.
Qed.

Lemma undo_then_redo_restores_witness :
  history (store_addEdge "A" "B" (Num 1) session_BA) ≠ []
  ∧ steps (store_addEdge "A" "B" (Num 1) session_BA) = []
  ∧ graph (redo (undo (store_addEdge "A" "B" (Num 1) session_BA)))
    = mkGraph ["B"; "A"] [mkEdge "A" "B" (Num 1)].
Proof.
  assert (history (store_addEdge "A" "B" (Num 1) session_BA) ≠ []) as Hh
    by (vm_compute; congruence).
  assert (steps (store_addEdge "A" "B" (Num 1) session_BA) = []) as Hs
    by reflexivity.
  split; [exact Hh|]. split; [exact Hs|].
  rewrite (proj1 (undo_then_redo_restores _ Hh Hs)). reflexivity.
Defined.

(** ** C7 *)

(** What the code does.  On the empty graph [getNextVertexLabel] answers
    [A].  Otherwise it looks at the greatest of all the labels, of whatever
    length, in code-unit order: when that label is one character whose
    successor is at most [Z] the answer is that successor, and in every
    other case it is [A] followed by the number of vertices. *)
Lemma getNextVertexLabel_greatest (g : Graph) :
  (vertices g = [] → (getNextVertexLabel g).1 = "A")
  ∧ (∀ m, m ∈ vertices g → (∀ a, a ∈ vertices g → str_le a m) →
          (getNextVertexLabel g).1 = labelAfter m (length (vertices g))).
Proof.
  split.
  - intros Hv. unfold getNextVertexLabel. by rewrite Hv.
  - intros m Hm Hmax. unfold getNextVertexLabel.
    rewrite (str_sort_last_max _ _ Hm Hmax), str_sort_length.
    unfold labelAfter. destruct m as [|c [|c' m]]; try done.
    by case_bool_decide.
Qed.

Lemma getNextVertexLabel_greatest_witness :
  "AB" ∈ vertices (mkGraph ["A"; "AB"] [])
  ∧ (∀ a, a ∈ vertices (mkGraph ["A"; "AB"] []) → str_le a "AB")
  ∧ (getNextVertexLabel (mkGraph ["A"; "AB"] [])).1 = "A2".
Proof.
  assert ("AB" ∈ vertices (mkGraph ["A"; "AB"] [])) as Hm.
  { simpl. apply elem_of_cons. right. apply list_elem_of_singleton. reflexivity. }
  assert (∀ a, a ∈ vertices (mkGraph ["A"; "AB"] []) → str_le a "AB") as Hmax.
  { simpl. intros a Ha. apply elem_of_cons in Ha as [->|Ha]; [reflexivity|].
    apply list_elem_of_singleton in Ha as ->. reflexivity. }
  split; [exact Hm|]. split; [exact Hmax|].
  rewrite (proj2 (getNextVertexLabel_greatest (mkGraph ["A"; "AB"] [])) "AB" Hm Hmax).
  reflexivity.
Defined.

(** C7.  The fallback label is used while letters are still free, and it
    can be a label that exists.  Removing [B] to [Z] from the first 27
    generated vertices leaves [A] and [A26]; the greatest label in
    code-unit order is then [A26], so the answer is [A2], where the letter
    after the only single-character label is [B], which is free.  And
    after 28 generated vertices and the removal of [B], the 27 vertices
    left include [A27], the generated label is [A27] again, and
    [addVertex] adds nothing. *)
Theorem getNextVertexLabel_early_fallback :
  vertices (graph (foldl (λ s l, removeVertex l s) (autoVertices 27)
                     ["B"; "C"; "D"; "E"; "F"; "G"; "H"; "I"; "J"; "K"; "L";
                      "M"; "N"; "O"; "P"; "Q"; "R"; "S"; "T"; "U"; "V"; "W";
                      "X"; "Y"; "Z"]))
  = ["A"; "A26"]
  ∧ (getNextVertexLabel (mkGraph ["A"; "A26"] [])).1 = "A2"
  ∧ spec_nextVertexLabel (mkGraph ["A"; "A26"] []) = "B"
  ∧ ("B" ∉ vertices (mkGraph ["A"; "A26"] []))
  ∧ length (vertices (graph (removeVertex "B" (autoVertices 28)))) = 27%nat
  ∧ (getNextVertexLabel (graph (removeVertex "B" (autoVertices 28)))).1 = "A27"
  ∧ "A27" ∈ vertices (graph (removeVertex "B" (autoVertices 28)))
  ∧ length (vertices (graph (addVertex None (removeVertex "B" (autoVertices 28)))))
    = 27%nat.
Proof.
  split; [vm_compute; reflexivity|]. split; [vm_compute; reflexivity|].
  split; [vm_compute; reflexivity|]. split.
  { simpl. intros Hin. apply elem_of_cons in Hin as [Hin|Hin]; [discriminate Hin|].
    apply list_elem_of_singleton in Hin. discriminate Hin. }
  split; [vm_compute; reflexivity|]. split; [vm_compute; reflexivity|].
  split; [|vm_compute; reflexivity].
  assert (bool_decide
            ("A27" ∈ vertices (graph (removeVertex "B" (autoVertices 28)))) = true)
    as H by (vm_compute; reflexivity).
  by apply bool_decide_eq_true in H.
Qed.

(** Where every label is a capital letter the two agree. *)
Lemma nextVertexLabel_agree_examples :
  Forall (λ vs, (getNextVertexLabel (mkGraph vs [])).1
                = spec_nextVertexLabel (mkGraph vs []))
         [ []; ["A"]; ["B"; "A"]; ["A"; "C"; "B"]; ["Z"; "A"] ].
Proof. repeat constructor. Qed.

(** ** C8 *)

(** C8 at the vertices [B; A].  Generating a label leaves the graph
    object with its vertices sorted, [A; B], and the vertex the store then
    appends follows that order. *)
Theorem getNextVertexLabel_sorts_in_place :
  vertices (graph session_BA) = ["B"; "A"]
  ∧ getNextVertexLabel (graph session_BA) = ("C", mkGraph ["A"; "B"] [])
  ∧ vertices (getNextVertexLabel (graph session_BA)).2 ≠ vertices (graph session_BA)
  ∧ vertices (graph (addVertex None session_BA)) = ["A"; "B"; "C"].
Proof. vm_compute. repeat split; congruence. Qed.

(** In general the graph object is left with its labels in sorted order. *)
Lemma getNextVertexLabel_leaves_sorted g :
  (getNextVertexLabel g).2 = mkGraph (str_sort (vertices g)) (edges g).
Proof.
  unfold getNextVertexLabel.
  destruct (last _) as [[|c [|c' m]]|]; try done. by case_bool_decide.
Qed.

(** ** The traversal of [isConnected] *)

Section dfs_correct.
Context (adjList : gmap string (list string)) (U : gset string).
Hypothesis U_closed : ∀ a b, dfs_edge adjList a b → b ∈ U.

(** The [for] loop over the neighbours of [a], given what the nested
    calls do. *)
Lemma dfs_loop (rec : string → gset string → gset string) (a : string) (n : nat) :
  (∀ b vis, b ∉ vis → b ∈ U → (size (U ∖ vis) ≤ n)%nat →
     vis ⊆ rec b vis ∧ b ∈ rec b vis
     ∧ (∀ c, c ∈ rec b vis → c ∈ vis ∨ rtc (dfs_edge adjList) b c)
     ∧ (∀ c, c ∈ rec b vis → c ∉ vis →
             ∀ d, dfs_edge adjList c d → d ∈ rec b vis)) →
  ∀ (l : list string) (vis : gset string),
    (∀ b, b ∈ l → dfs_edge adjList a b) →
    (size (U ∖ vis) ≤ n)%nat →
    vis ⊆ foldl (λ vis nb, if decide (nb ∈ vis) then vis else rec nb vis) vis l
    ∧ (∀ b, b ∈ l →
         b ∈ foldl (λ vis nb, if decide (nb ∈ vis) then vis else rec nb vis) vis l)
    ∧ (∀ c, c ∈ foldl (λ vis nb, if decide (nb ∈ vis) then vis else rec nb vis) vis l →
            c ∈ vis ∨ rtc (dfs_edge adjList) a c)
    ∧ (∀ c, c ∈ foldl (λ vis nb, if decide (nb ∈ vis) then vis else rec nb vis) vis l →
            c ∉ vis →
            ∀ d, dfs_edge adjList c d →
                 d ∈ foldl (λ vis nb, if decide (nb ∈ vis) then vis else rec nb vis) vis l).
Proof.
  intros Hrec l. induction l as [|b l IH]; intros vis Hl Hsize; simpl.
  - repeat split; [done|..].
    + intros b Hb. by apply elem_of_nil in Hb.
    + auto.
    + done.
  - assert (∀ b', b' ∈ l → dfs_edge adjList a b') as Hl'
      by (intros; apply Hl; by right).
    assert (dfs_edge adjList a b) as Hab by (apply Hl; by left).
    destruct (decide (b ∈ vis)) as [Hb|Hb].
    + destruct (IH vis Hl' Hsize) as (H1 & H2 & H3 & H4).
      repeat split; try done.
      intros b' [->|Hb']%elem_of_cons; [by apply H1|by apply H2].
    + destruct (Hrec b vis Hb (U_closed _ _ Hab) Hsize) as (R1 & R2 & R3 & R4).
      assert ((size (U ∖ rec b vis) ≤ n)%nat) as Hsize'.
      { etrans; [|exact Hsize]. apply subseteq_size. set_solver. }
      destruct (IH (rec b vis) Hl' Hsize') as (H1 & H2 & H3 & H4).
      repeat split.
      * set_solver.
      * intros b' [->|Hb']%elem_of_cons; [by apply H1|by apply H2].
      * intros c Hc. destruct (H3 c Hc) as [Hc'|Hc']; [|by right].
        destruct (R3 c Hc') as [?|Hbc]; [by left|right].
        by eapply rtc_l.
      * intros c Hc Hcv d Hcd.
        destruct (decide (c ∈ rec b vis)) as [Hc'|Hc'].
        -- apply H1. by eapply R4.
        -- by eapply H4.
Qed.

(** What one call of [dfs] does when the fuel covers the labels that
    are still unmarked: it only adds labels reachable from its
    argument, and everything it adds has all its neighbours marked on
    return. *)
Lemma dfs_call (fuel : nat) :
  ∀ a vis, a ∉ vis → a ∈ U → (size (U ∖ vis) ≤ fuel)%nat →
    vis ⊆ dfs fuel adjList a vis ∧ a ∈ dfs fuel adjList a vis
    ∧ (∀ c, c ∈ dfs fuel adjList a vis → c ∈ vis ∨ rtc (dfs_edge adjList) a c)
    ∧ (∀ c, c ∈ dfs fuel adjList a vis → c ∉ vis →
            ∀ d, dfs_edge adjList c d → d ∈ dfs fuel adjList a vis).
Proof.
  induction fuel as [|n IH]; intros a vis Ha HaU Hsize.
  - exfalso. assert (size (U ∖ vis) = 0%nat) as H0 by lia.
    apply size_empty_inv in H0. set_solver.
  - assert ((size (U ∖ ({[a]} ∪ vis)) ≤ n)%nat) as Hsize'.
    { assert (U ∖ vis ≡ {[a]} ∪ (U ∖ ({[a]} ∪ vis))) as Heq.
      { intros c. destruct (decide (c = a)); set_solver. }
      rewrite Heq, size_union, size_singleton in Hsize by set_solver. lia. }
    destruct (dfs_loop (dfs n adjList) a n IH
                (default [] (adjList !! a)) ({[a]} ∪ vis)) as (H1 & H2 & H3 & H4);
      [done|done|].
    simpl. repeat split.
    + set_solver.
    + set_solver.
    + intros c Hc. destruct (H3 c Hc) as [Hc'|Hc']; [|by right].
      apply elem_of_union in Hc' as [->%elem_of_singleton|?]; [by right|by left].
    + intros c Hc Hcv d Hcd. destruct (decide (c = a)) as [->|Hne].
      * by apply H2.
      * eapply H4; [done| |done]. set_solver.
Qed.

(** Started on the empty set with enough fuel, [dfs] marks exactly the
    labels reachable from its argument. *)
Lemma dfs_reachable (fuel : nat) (a c : string) :
  a ∈ U → (size U ≤ fuel)%nat →
  c ∈ dfs fuel adjList a ∅ ↔ rtc (dfs_edge adjList) a c.
Proof.
  intros HaU Hsize.
  destruct (dfs_call fuel a ∅) as (H1 & H2 & H3 & H4); [set_solver|done| |].
  { etrans; [|exact Hsize]. apply subseteq_size. set_solver. }
  split.
  - intros Hc. destruct (H3 c Hc) as [?|?]; [set_solver|done].
  - revert c. apply (rtc_ind_r (λ c, c ∈ dfs fuel adjList a ∅)); [done|].
    intros b c _ Hbc IH. eapply H4; [exact IH|set_solver|done].
Qed.
End dfs_correct.

(** The fuel [isConnected] passes never runs out: a larger one marks the
    same labels. *)
Lemma dfs_fuel_irrelevant adjList (U : gset string) (fuel fuel' : nat) (a : string) :
  (∀ a b, dfs_edge adjList a b → b ∈ U) → a ∈ U →
  (size U ≤ fuel)%nat → (size U ≤ fuel')%nat →
  dfs fuel adjList a ∅ = dfs fuel' adjList a ∅.
Proof.
  intros HU Ha H1 H2. apply set_eq. intros c.
  by rewrite (dfs_reachable adjList U HU fuel a c),
             (dfs_reachable adjList U HU fuel' a c).
Qed.

(** ** The adjacency list *)

Lemma adj_init_lookup (vs : list string) (m : gmap string (list string)) (a : string) :
  foldl (λ m a, <[a := []]> m) m vs !! a
  = if decide (a ∈ vs) then Some [] else m !! a.
Proof.
  revert m. induction vs as [|b vs IH]; intros m; cbn [foldl].
  - rewrite decide_False; [done|]. apply not_elem_of_nil.
  - rewrite IH. destruct (decide (a ∈ vs)) as [Ha|Ha].
    + rewrite decide_True; [done|]. by right.
    + destruct (decide (b = a)) as [->|Hne].
      * rewrite lookup_insert_eq, decide_True; [done|]. by left.
      * rewrite lookup_insert_ne by done.
        rewrite decide_False; [done|].
        intros [?|?]%elem_of_cons; congruence.
Qed.

Lemma adj_push_is_Some a0 b0 m a :
  is_Some (adj_push a0 b0 m !! a) ↔ is_Some (m !! a).
Proof.
  unfold adj_push. destruct (m !! a0) as [l|] eqn:E; [|done].
  destruct (decide (a0 = a)) as [->|Hne].
  - rewrite lookup_insert_eq, E. split; eauto.
  - by rewrite lookup_insert_ne.
Qed.

Lemma adj_push_neighbors a0 b0 m a b :
  b ∈ default [] (adj_push a0 b0 m !! a)
  ↔ b ∈ default [] (m !! a) ∨ (a = a0 ∧ is_Some (m !! a0) ∧ b = b0).
Proof.
  unfold adj_push. destruct (m !! a0) as [l|] eqn:E.
  - destruct (decide (a0 = a)) as [->|Hne].
    + rewrite lookup_insert_eq, E. simpl. rewrite elem_of_app, list_elem_of_singleton.
      split; [intros [?|?]; eauto|intros [?|(_ & _ & ?)]; eauto].
    + rewrite lookup_insert_ne by done.
      split; [eauto|intros [?|(? & _)]; [done|congruence]].
  - split; [eauto|intros [?|(_ & [? ?] & _)]; [done|congruence]].
Qed.

Lemma adjacent_snoc es e a b :
  adjacent (es ++ [e]) a b
  ↔ adjacent es a b ∨ (u e = a ∧ v e = b) ∨ (u e = b ∧ v e = a).
Proof.
  unfold adjacent. split.
  - intros (e' & [He'|He']%elem_of_app & H).
    + left. eauto.
    + apply list_elem_of_singleton in He' as ->. by right.
  - intros [(e' & He' & H)|H].
    + exists e'. split; [|done]. apply elem_of_app. by left.
    + exists e. split; [|done]. apply elem_of_app. right.
      by apply list_elem_of_singleton.
Qed.

Lemma adj_edges_lookup (vs : list string) (es : list Edge) :
  ∀ (m : gmap string (list string)) (done_ : list Edge),
    (∀ a, is_Some (m !! a) ↔ a ∈ vs) →
    (∀ a b, b ∈ default [] (m !! a) ↔ a ∈ vs ∧ adjacent done_ a b) →
    ∀ a b,
      b ∈ default []
            (foldl (λ m e, adj_push (v e) (u e) (adj_push (u e) (v e) m)) m es !! a)
      ↔ a ∈ vs ∧ adjacent (done_ ++ es) a b.
Proof.
  induction es as [|e es IH]; intros m done_ Hdom Hadj a b; simpl.
  - by rewrite app_nil_r.
  - rewrite cons_middle, app_assoc. apply IH.
    + intros c. by rewrite !adj_push_is_Some.
    + intros c d. rewrite !adj_push_neighbors, adj_push_is_Some, adjacent_snoc.
      rewrite Hadj, !Hdom. split.
      * intros [[[? ?]|(-> & ? & ->)]|(-> & ? & ->)]; eauto 6.
      * intros [Hc [?|[[<- <-]|[<- <-]]]]; eauto 6.
Qed.

(** The lists [isConnected] walks: out of a vertex, to every label an
    edge joins it to. *)
Lemma buildAdjList_edge g a b :
  dfs_edge (buildAdjList g) a b ↔ a ∈ vertices g ∧ adjacent (edges g) a b.
Proof.
  unfold dfs_edge, buildAdjList.
  rewrite (adj_edges_lookup (vertices g) (edges g) _ []); [done|..].
  - intros c. rewrite adj_init_lookup. case_decide; [split; eauto|].
    rewrite lookup_empty. split; [by intros [? ?]|done].
  - intros c d. rewrite adj_init_lookup. case_decide; simpl.
    + split; [by intros ?%elem_of_nil|].
      intros [_ (e & ?%elem_of_nil & _)]. done.
    + rewrite lookup_empty. simpl. split; [by intros ?%elem_of_nil|].
      by intros [? _].
Qed.

Lemma size_list_to_set_le (l : list string) :
  (size (list_to_set l : gset string) ≤ length l)%nat.
Proof.
  induction l as [|a l IH].
  - rewrite list_to_set_nil, size_empty. done.
  - rewrite list_to_set_cons, size_union_alt, size_singleton. cbn [length].
    assert (size (list_to_set l ∖ {[a]} : gset string) ≤ size (list_to_set l : gset string))%nat
      by (apply subseteq_size; set_solver).
    lia.
Qed.

Lemma size_list_to_set_NoDup (l : list string) :
  size (list_to_set l : gset string) = length l → NoDup l.
Proof.
  induction l as [|a l IH]; [constructor|].
  rewrite list_to_set_cons. cbn [length].
  intros Hsize. pose proof (size_list_to_set_le l) as Hle.
  destruct (decide (a ∈ l)) as [Ha|Ha].
  - exfalso.
    assert ({[a]} ∪ list_to_set l = (list_to_set l : gset string)) as Heq
      by set_solver.
    rewrite Heq in Hsize. lia.
  - rewrite size_union, size_singleton in Hsize by set_solver.
    constructor; [done|]. apply IH. lia.
Qed.

Lemma labelsOf_size g : (size (labelsOf g) ≤ dfs_fuel g)%nat.
Proof.
  unfold labelsOf, dfs_fuel.
  rewrite size_union_alt.
  pose proof (size_list_to_set_le (vertices g)).
  pose proof (size_list_to_set_le (flat_map (λ e, [u e; v e]) (edges g))) as H2.
  assert (length (flat_map (λ e, [u e; v e]) (edges g)) = 2 * length (edges g))%nat as Hl.
  { generalize (edges g). intros es.
    induction es as [|e es IH]; [done|]. cbn [flat_map app length]. lia. }
  assert (size (list_to_set (flat_map (λ e, [u e; v e]) (edges g))
                  ∖ list_to_set (vertices g) : gset string)
          ≤ size (list_to_set (flat_map (λ e, [u e; v e]) (edges g)) : gset string))%nat
    by (apply subseteq_size; set_solver).
  lia.
Qed.

Lemma labelsOf_closed g a b : dfs_edge (buildAdjList g) a b → b ∈ labelsOf g.
Proof.
  rewrite buildAdjList_edge. intros [_ (e & He & H)].
  unfold labelsOf. apply elem_of_union. right.
  apply elem_of_list_to_set, list_elem_of_In, in_flat_map.
  exists e. split; [by apply list_elem_of_In|].
  simpl. destruct H as [[_ <-]|[<- _]]; auto.
Qed.

(** The set [isConnected] counts, for a graph of two or more vertices. *)
Lemma isConnected_visited g first c :
  first ∈ vertices g →
  c ∈ dfs (dfs_fuel g) (buildAdjList g) first ∅
  ↔ rtc (dfs_edge (buildAdjList g)) first c.
Proof.
  intros Hf. apply (dfs_reachable _ (labelsOf g)).
  - apply labelsOf_closed.
  - unfold labelsOf. apply elem_of_union. left. by apply elem_of_list_to_set.
  - apply labelsOf_size.
Qed.

(** ** Reachability *)

Lemma adjacent_sym es a b : adjacent es a b → adjacent es b a.
Proof. intros (e & He & [H|H]); exists e; split; auto. Qed.

Lemma adjacent_mono es es' a b :
  (∀ e, e ∈ es → e ∈ es') → adjacent es a b → adjacent es' a b.
Proof. intros Hsub (e & He & H). exists e. split; auto. Qed.

Lemma reach_trans es a b c : reach es a b → reach es b c → reach es a c.
Proof. apply rtc_trans. Qed.

Lemma reach_sym es a b : reach es a b → reach es b a.
Proof.
  induction 1 as [|a b c Hab _ IH]; [apply rtc_refl|].
  eapply rtc_r; [exact IH|]. by apply adjacent_sym.
Qed.

Lemma reach_mono es es' a b :
  (∀ e, e ∈ es → e ∈ es') → reach es a b → reach es' a b.
Proof.
  intros Hsub. induction 1 as [|a b c Hab _ IH]; [apply rtc_refl|].
  eapply rtc_l; [|exact IH]. by eapply adjacent_mono.
Qed.

Lemma reach_nil a b : reach [] a b → a = b.
Proof.
  induction 1 as [|a b c (e & He & _) _ _]; [done|]. by apply elem_of_nil in He.
Qed.

(** Adding one edge joins exactly what its two endpoints reached. *)
Lemma reach_cons e es a b :
  reach (e :: es) a b
  ↔ reach es a b
    ∨ (reach es a (u e) ∧ reach es (v e) b)
    ∨ (reach es a (v e) ∧ reach es (u e) b).
Proof.
  split.
  - induction 1 as [a|a b c (e' & He' & Hab) _ IH]; [left; apply rtc_refl|].
    apply elem_of_cons in He' as [->|He'].
    + destruct Hab as [[<- <-]|[<- <-]].
      * destruct IH as [H|[[H1 H2]|[H1 H2]]].
        -- right. left. split; [apply rtc_refl|done].
        -- right. left. split; [apply rtc_refl|done].
        -- left. done.
      * destruct IH as [H|[[H1 H2]|[H1 H2]]].
        -- right. right. split; [apply rtc_refl|done].
        -- left. done.
        -- right. right. split; [apply rtc_refl|done].
    + assert (adjacent es a b) as Hs by (exists e'; auto).
      destruct IH as [H|[[H1 H2]|[H1 H2]]].
      * left. by eapply rtc_l.
      * right. left. split; [by eapply rtc_l|done].
      * right. right. split; [by eapply rtc_l|done].
  - assert (∀ c d, reach es c d → reach (e :: es) c d) as Hup.
    { intros c d. apply reach_mono. intros e' He'. by right. }
    assert (adjacent (e :: es) (u e) (v e)) as Hedge.
    { exists e. split; [by left|]. by left. }
    intros [H|[[H1 H2]|[H1 H2]]].
    + by apply Hup.
    + eapply reach_trans; [apply Hup, H1|].
      eapply rtc_l; [exact Hedge|]. by apply Hup.
    + eapply reach_trans; [apply Hup, H1|].
      eapply rtc_l; [apply adjacent_sym, Hedge|]. by apply Hup.
Qed.

(** In a graph without dangling edges a path out of a vertex stays among
    the vertices, and is a path of the traversal. *)
Lemma reach_traversal g a b :
  noDangling g → a ∈ vertices g → reach (edges g) a b →
  b ∈ vertices g ∧ rtc (dfs_edge (buildAdjList g)) a b.
Proof.
  intros Hnd Ha. induction 1 as [a|a b c Hab _ IH].
  - split; [done|apply rtc_refl].
  - assert (b ∈ vertices g) as Hb.
    { destruct Hab as (e & He & [[_ <-]|[<- _]]); by apply Hnd. }
    destruct (IH Hb) as [Hc Hbc]. split; [done|].
    eapply rtc_l; [|exact Hbc]. by apply buildAdjList_edge.
Qed.

Lemma traversal_reach g a b :
  rtc (dfs_edge (buildAdjList g)) a b → reach (edges g) a b.
Proof.
  induction 1 as [a|a b c Hab _ IH]; [apply rtc_refl|].
  eapply rtc_l; [|exact IH]. by apply buildAdjList_edge in Hab as [_ ?].
Qed.

(** ** What [isConnected] decides *)

(** On a graph without dangling edges, [isConnected] holds exactly when no
    vertex is listed twice and any two vertices are joined by a path. *)
Lemma isConnected_spec g :
  noDangling g → isConnected g = true ↔ NoDup (vertices g) ∧ Connected g.
Proof.
  intros Hnd. unfold isConnected, Connected.
  destruct (vertices g) as [|first [|second rest]] eqn:Hv.
  - split; [|done]. intros _. split; [constructor|].
    intros a b Ha. by apply elem_of_nil in Ha.
  - split; [|done]. intros _. split; [apply NoDup_singleton|].
    intros a b ->%list_elem_of_singleton ->%list_elem_of_singleton.
    apply rtc_refl.
  - rewrite <- Hv.
    assert (first ∈ vertices g) as Hf by (rewrite Hv; by left).
    set (R := dfs (dfs_fuel g) (buildAdjList g) first ∅).
    assert (∀ c, c ∈ R ↔ reach (edges g) first c) as HR.
    { intros c. unfold R. rewrite (isConnected_visited g first c Hf). split.
      - apply traversal_reach.
      - intros H. by apply (reach_traversal g first c Hnd Hf). }
    assert (R ⊆ (list_to_set (vertices g) : gset string)) as Hsub.
    { intros c Hc. apply elem_of_list_to_set.
      apply HR in Hc. by apply (reach_traversal g first c Hnd Hf). }
    pose proof (size_list_to_set_le (vertices g)) as Hle.
    assert (size R ≤ size (list_to_set (vertices g) : gset string))%nat as Hle'
      by (by apply subseteq_size).
    rewrite bool_decide_eq_true. split.
    + intros Hsize.
      assert (NoDup (vertices g)) as Hnodup
        by (apply size_list_to_set_NoDup; lia).
      split; [done|].
      assert (R = list_to_set (vertices g)) as HReq
        by (apply set_subseteq_size_eq; [done|lia]).
      intros a b Ha Hb.
      eapply reach_trans; [apply reach_sym|]; apply HR; rewrite HReq;
        by apply elem_of_list_to_set.
    + intros [Hnodup Hconn].
      assert (R = list_to_set (vertices g)) as ->.
      { apply set_eq. intros c. rewrite elem_of_list_to_set. split.
        - intros Hc. apply Hsub in Hc. by apply elem_of_list_to_set in Hc.
        - intros Hc. apply HR. by apply Hconn. }
      by apply size_list_to_set.
Qed.

Lemma noDangling_perm g g' :
  vertices g' ≡ₚ vertices g → edges g' ≡ₚ edges g → noDangling g → noDangling g'.
Proof.
  intros Hv He Hnd e Hin. rewrite Hv. apply Hnd. by rewrite <- He.
Qed.

Lemma Connected_perm g g' :
  vertices g' ≡ₚ vertices g → edges g' ≡ₚ edges g → Connected g → Connected g'.
Proof.
  intros Hv He Hc a b Ha Hb. rewrite Hv in Ha, Hb.
  eapply reach_mono; [|by apply Hc]. intros e Hin. by rewrite He.
Qed.

(** ** C6 *)

(** For a graph whose edges refer only to its own vertices, which is
    what [validateGraph] checks before it calls [isConnected], the answer
    is the same after any reordering of the vertices and of the edges. *)
Lemma isConnected_permutation_invariant (g : Graph) (vs : list string)
    (es : list Edge) :
  noDangling g → vs ≡ₚ vertices g → es ≡ₚ edges g →
  isConnected (mkGraph vs es) = isConnected g.
Proof.
  intros Hnd Hv He.
  assert (noDangling (mkGraph vs es)) as Hnd'
    by (by apply (noDangling_perm g)).
  pose proof (isConnected_spec g Hnd) as H1.
  pose proof (isConnected_spec (mkGraph vs es) Hnd') as H2.
  assert (NoDup (vertices (mkGraph vs es)) ∧ Connected (mkGraph vs es)
          ↔ NoDup (vertices g) ∧ Connected g) as H3.
  { simpl. split; intros [Hn Hc]; split.
    - by rewrite <- Hv.
    - by apply (Connected_perm (mkGraph vs es)).
    - by rewrite Hv.
    - by apply (Connected_perm g). }
  destruct (isConnected g), (isConnected (mkGraph vs es)); try done.
  - apply H2, H3, H1. done.
  - symmetry. apply H1, H3, H2. done.
Qed.

Lemma isConnected_permutation_invariant_witness :
  noDangling triangle
  ∧ ["C"; "A"; "B"] ≡ₚ vertices triangle
  ∧ rev (edges triangle) ≡ₚ edges triangle
  ∧ isConnected (mkGraph ["C"; "A"; "B"] (rev (edges triangle)))
    = isConnected triangle.
Proof.
  assert (noDangling triangle) as Hnd.
  { intros e He. simpl in He.
    repeat (apply elem_of_cons in He as [->|He]); [..|by apply elem_of_nil in He];
      simpl; split; repeat (first [by left | right]). }
  assert (["C"; "A"; "B"] ≡ₚ vertices triangle) as Hv.
  { simpl. apply (Permutation_cons_append ["A"; "B"] "C"). }
  assert (rev (edges triangle) ≡ₚ edges triangle) as He
    by (symmetry; apply Permutation_rev).
  split; [exact Hnd|]. split; [exact Hv|]. split; [exact He|].
  exact (isConnected_permutation_invariant triangle _ _ Hnd Hv He).
Defined.

(** C6.  [isConnected] marks and counts a neighbour that is not a vertex.
    With the vertices [A; B] and the one edge [A-C] it answers [true]
    although no path joins [A] and [B]; with the same vertices in the
    order [B; A] and the same edge it answers [false]; and with the
    vertices [A; B] and the edges [A-B] and [A-C] it answers [false]
    although [A] and [B] are joined. *)
Theorem isConnected_counts_unknown_neighbour :
  vertices danglingGraph_swapped ≡ₚ vertices danglingGraph
  ∧ edges danglingGraph_swapped ≡ₚ edges danglingGraph
  ∧ isConnected danglingGraph = true
  ∧ isConnected danglingGraph_swapped = false
  ∧ ¬ reach (edges danglingGraph) "A" "B"
  ∧ isConnected (mkGraph ["A"; "B"]
                   [mkEdge "A" "B" (Num 1); mkEdge "A" "C" (Num 1)]) = false
  ∧ Connected (mkGraph ["A"; "B"]
                 [mkEdge "A" "B" (Num 1); mkEdge "A" "C" (Num 1)]).
Proof.
  split; [apply Permutation_swap|]. split; [done|].
  split; [vm_compute; reflexivity|]. split; [vm_compute; reflexivity|].
  split; [|split; [vm_compute; reflexivity|]].
  - intros Hr.
    assert (∀ a b, reach (edges danglingGraph) a b →
                   a = "A" ∨ a = "C" → b = "A" ∨ b = "C") as Hinv.
    { induction 1 as [a|a b c Hab _ IH]; [done|]. intros _. apply IH.
      destruct Hab as (e & He & Hends). simpl in He.
      apply list_elem_of_singleton in He as ->. simpl in Hends.
      destruct Hends as [[_ <-]|[<- _]]; auto. }
    destruct (Hinv _ _ Hr) as [?|?]; [by left|done..].
  - assert (adjacent [mkEdge "A" "B" (Num 1); mkEdge "A" "C" (Num 1)] "A" "B")
      as Hab.
    { exists (mkEdge "A" "B" (Num 1)). split; [by left|]. by left. }
    intros a b Ha Hb. simpl in *.
    apply elem_of_cons in Ha as [->|Ha]; [|apply list_elem_of_singleton in Ha as ->];
      (apply elem_of_cons in Hb as [->|Hb];
       [|apply list_elem_of_singleton in Hb as ->]).
    + apply rtc_refl.
    + by apply rtc_once.
    + apply reach_sym. by apply rtc_once.
    + apply rtc_refl.
Qed.

(** ** Trees *)

Lemma edgesEqual_true e1 e2 :
  edgesEqual e1 e2 = true
  ↔ (u e1 = u e2 ∧ v e1 = v e2) ∨ (u e1 = v e2 ∧ v e1 = u e2).
Proof.
  unfold edgesEqual.
  rewrite orb_true_iff, !andb_true_iff, !bool_decide_eq_true. done.
Qed.

(** When the endpoints of [e] stay joined without it, dropping [e] (and
    whatever equals it) disconnects nothing. *)
Lemma reach_reroute es e a b :
  reach (List.filter (λ e', negb (edgesEqual e' e)) es) (u e) (v e) →
  reach es a b →
  reach (List.filter (λ e', negb (edgesEqual e' e)) es) a b.
Proof.
  intros Hpath. induction 1 as [a|a b c (e' & He' & Hab) _ IH]; [apply rtc_refl|].
  eapply reach_trans; [|exact IH].
  destruct (edgesEqual e' e) eqn:E.
  - apply edgesEqual_true in E.
    destruct E as [[E1 E2]|[E1 E2]], Hab as [[<- <-]|[<- <-]];
      rewrite ?E1, ?E2; first [exact Hpath | by apply reach_sym].
  - apply rtc_once. exists e'. split; [|done].
    apply elem_of_List_filter. by rewrite E.
Qed.

Lemma distinct_forest es :
  distinctEdges es →
  (∀ e, e ∈ es →
        ¬ reach (List.filter (λ e', negb (edgesEqual e' e)) es) (u e) (v e)) →
  forest es.
Proof.
  induction 1 as [|e es Hne Hd IH]; intros Hbridge; constructor.
  - apply IH. intros e' He' Hr. apply (Hbridge e'); [by right|].
    eapply reach_mono; [|exact Hr].
    intros e'' [? ?]%elem_of_List_filter. apply elem_of_List_filter.
    split; [by right|done].
  - intros Hr. apply (Hbridge e); [by left|].
    eapply reach_mono; [|exact Hr].
    intros e' He'. apply elem_of_List_filter. split; [by right|].
    by rewrite (Hne e' He').
Qed.

(** A forest on [vs] with [k] edges has [length vs - k] components: there
    is a choice of representatives [cls], equal on two vertices exactly
    when they are joined, with that many values. *)
Lemma forest_components (vs : list string) (es : list Edge) :
  NoDup vs → forest es →
  (∀ e, e ∈ es → u e ∈ vs ∧ v e ∈ vs) →
  ∃ cls : string → string,
    (∀ a b, a ∈ vs → b ∈ vs → cls a = cls b ↔ reach es a b)
    ∧ (size (list_to_set (cls <$> vs) : gset string) + length es = length vs)%nat.
Proof.
  intros Hnodup Hf. induction Hf as [|e es Hf IH Hnot]; intros Hin.
  - exists id. split.
    + intros a b _ _. simpl. split; [intros ->; apply rtc_refl|apply reach_nil].
    + rewrite list_fmap_id, size_list_to_set by done. simpl. lia.
  - destruct IH as (cls & Hcls & Hsize).
    { intros e' He'. apply Hin. by right. }
    destruct (Hin e) as [Hu Hv]; [by left|].
    assert (cls (u e) ≠ cls (v e)) as Hne by (by rewrite Hcls).
    exists (λ a, if decide (cls a = cls (v e)) then cls (u e) else cls a).
    split.
    + intros a b Ha Hb. rewrite reach_cons.
      rewrite <- !Hcls by done.
      repeat case_decide; intuition congruence.
    + assert ((list_to_set ((λ a, if decide (cls a = cls (v e)) then cls (u e)
                                   else cls a) <$> vs) : gset string)
              = list_to_set (cls <$> vs) ∖ {[cls (v e)]}) as ->.
      { apply set_eq. intros c.
        rewrite elem_of_difference, !elem_of_list_to_set, !list_elem_of_fmap,
          elem_of_singleton.
        split.
        - intros (a & -> & Ha). case_decide.
          + split; [|done]. eauto.
          + split; [|done]. eauto.
        - intros [(a & -> & Ha) Hc]. exists a. split; [|done].
          by rewrite decide_False. }
      rewrite size_difference, size_singleton.
      * assert (0 < size (list_to_set (cls <$> vs) : gset string))%nat.
        { assert (size ({[cls (v e)]} : gset string)
                  ≤ size (list_to_set (cls <$> vs) : gset string))%nat as Hle.
          { apply subseteq_size. intros c ->%elem_of_singleton.
            apply elem_of_list_to_set, list_elem_of_fmap. eauto. }
          rewrite size_singleton in Hle. lia. }
        simpl. lia.
      * intros c ->%elem_of_singleton.
        apply elem_of_list_to_set, list_elem_of_fmap. eauto.
Qed.

(** A connected graph each of whose edges is a bridge has one edge fewer
    than it has vertices. *)
Lemma tree_edge_count (g : Graph) :
  vertices g ≠ [] → NoDup (vertices g) → noDangling g →
  distinctEdges (edges g) → Connected g →
  (∀ e, e ∈ edges g →
        ¬ reach (List.filter (λ e', negb (edgesEqual e' e)) (edges g)) (u e) (v e)) →
  (length (edges g) + 1 = length (vertices g))%nat.
Proof.
  intros Hne Hnodup Hnd Hd Hconn Hbridge.
  destruct (forest_components (vertices g) (edges g)) as (cls & Hcls & Hsize);
    [done|by apply distinct_forest|done|].
  destruct (vertices g) as [|first rest] eqn:Hv; [done|].
  assert ((list_to_set (cls <$> first :: rest) : gset string) = {[cls first]}) as Heq.
  { apply set_eq. intros c.
    rewrite elem_of_list_to_set, list_elem_of_fmap, elem_of_singleton. split.
    - intros (a & -> & Ha). apply Hcls; [done|by left|].
      apply Hconn; rewrite Hv; [done|by left].
    - intros ->. exists first. split; [done|by left]. }
  rewrite Heq, size_singleton in Hsize. lia.
Qed.

(** ** What a graph without validation errors looks like *)

Lemma dupScan_distinct (es : list Edge) :
  ∀ (st : gset string * list ValidationError.t),
    (foldl dupScan_step st es).2 = [] →
    st.2 = []
    ∧ (∀ e, e ∈ es → u e +:+ "-" +:+ v e ∉ st.1)
    ∧ distinctEdges es.
Proof.
  induction es as [|e es IH]; intros [seen errs] Hnil; simpl in *.
  - split; [done|]. split; [|constructor].
    intros e He. by apply elem_of_nil in He.
  - unfold dupScan_step in Hnil at 2. simpl in Hnil.
    destruct (bool_decide (u e +:+ "-" +:+ v e ∈ seen)
              || bool_decide (v e +:+ "-" +:+ u e ∈ seen)) eqn:E.
    + apply IH in Hnil as [Hnil _]. simpl in Hnil.
      by apply app_eq_nil in Hnil as [_ ?].
    + apply IH in Hnil as (Herrs & Hkeys & Hd). simpl in *.
      apply orb_false_iff in E as [E1 E2].
      apply bool_decide_eq_false in E1, E2.
      split; [done|]. split.
      * intros e' [->|He']%elem_of_cons; [done|].
        specialize (Hkeys e' He'). set_solver.
      * constructor; [|done]. intros e' He'.
        destruct (edgesEqual e' e) eqn:Eq; [exfalso|done].
        specialize (Hkeys e' He').
        apply edgesEqual_true in Eq as [[E3 E4]|[E3 E4]];
          rewrite E3, E4 in Hkeys; set_solver.
Qed.

Lemma danglingScan_nil vs es :
  danglingScan vs es = [] → ∀ e, e ∈ es → u e ∈ vs ∧ v e ∈ vs.
Proof.
  induction es as [|e es IH]; simpl; intros Hnil e' He'.
  - by apply elem_of_nil in He'.
  - apply app_eq_nil in Hnil as [H1 H2].
    apply app_eq_nil in H1 as [Hu Hv].
    apply elem_of_cons in He' as [->|He']; [|by apply IH].
    repeat case_bool_decide; done.
Qed.

Lemma validateGraph_nil g :
  validateGraph g = [] →
  vertices g ≠ [] ∧ distinctEdges (edges g) ∧ noDangling g
  ∧ isConnected g = true.
Proof.
  intros Hval.
  assert (vertices g ≠ []) as Hne.
  { intros Hv. unfold validateGraph in Hval. by rewrite Hv in Hval. }
  rewrite (validateGraph_nonempty g Hne) in Hval.
  destruct (structuralErrors g) as [|err errs] eqn:Hs;
    [|by destruct (_ && _)].
  simpl in Hval. destruct (isConnected g); [|done].
  unfold structuralErrors in Hs.
  apply app_eq_nil in Hs as [Hdup Hs]. apply app_eq_nil in Hs as [_ Hs].
  apply app_eq_nil in Hs as [_ Hdang].
  split; [done|]. split; [|split; [|done]].
  - by apply (dupScan_distinct (edges g) (∅, [])).
  - intros e He. by apply (danglingScan_nil (vertices g) (edges g)).
Qed.

(** ** The loop of [reverseDelete] *)

Lemma sort_insert_perm {A} (cmp : A → A → number) a l :
  sort_insert cmp a l ≡ₚ a :: l.
Proof.
  induction l as [|b l IH]; simpl; [done|].
  destruct (num_pos _); [|done]. rewrite IH. apply Permutation_swap.
Qed.

Lemma js_sort_perm {A} (cmp : A → A → number) l : js_sort cmp l ≡ₚ l.
Proof.
  induction l as [|a l IH]; simpl; [done|]. by rewrite sort_insert_perm, IH.
Qed.

Lemma List_filter_sublist {A} (f : A → bool) l : List.filter f l `sublist_of` l.
Proof.
  induction l as [|a l IH]; simpl; [done|].
  destruct (f a); by constructor.
Qed.

Lemma distinct_sublist l1 l2 :
  l1 `sublist_of` l2 → distinctEdges l2 → distinctEdges l1.
Proof.
  induction 1 as [|e l1 l2 Hsub IH|e l1 l2 Hsub IH]; intros Hd.
  - constructor.
  - inversion Hd as [|? ? Hne Hd']; subst. constructor; [|by apply IH].
    intros e' He'. apply Hne. by eapply elem_of_sublist.
  - inversion Hd; subst. by apply IH.
Qed.

Lemma noDangling_sub g g' :
  noDangling g' → vertices g = vertices g' →
  (∀ e, e ∈ edges g → e ∈ edges g') → noDangling g.
Proof. intros Hnd Hv Hsub e He. rewrite Hv. by apply Hnd, Hsub. Qed.

(** Adding edges to a graph [isConnected] accepts keeps it accepted. *)
Lemma isConnected_mono g g' :
  noDangling g' → vertices g = vertices g' →
  (∀ e, e ∈ edges g → e ∈ edges g') →
  isConnected g = true → isConnected g' = true.
Proof.
  intros Hnd Hv Hsub Hc.
  apply (isConnected_spec g) in Hc as [Hnodup Hconn];
    [|by apply (noDangling_sub g g')].
  apply isConnected_spec; [done|]. rewrite <- Hv. split; [done|].
  intros a b Ha Hb. rewrite <- Hv in Ha, Hb.
  eapply reach_mono; [exact Hsub|]. by apply Hconn.
Qed.

Lemma removeEdge_elem g e e' :
  e' ∈ edges (removeEdge g e) ↔ e' ∈ edges g ∧ edgesEqual e' e = false.
Proof.
  unfold removeEdge. simpl. rewrite elem_of_List_filter, negb_true_iff. done.
Qed.

Lemma existsb_edgesEqual_false es e :
  existsb (λ e', edgesEqual e' e) es = false → e ∉ es.
Proof.
  intros Hex He. apply list_elem_of_In in He.
  assert (existsb (λ e', edgesEqual e' e) es = true) as Ht.
  { apply existsb_exists. exists e. split; [done|apply edgesEqual_refl]. }
  congruence.
Qed.

Lemma rd_body_inv G processed st e :
  noDangling G → rd_inv G processed st → rd_inv G (e :: processed) (rd_body st e).
Proof.
  intros Hnd (Hv & Hsub & Hconn & Hkept & Hsteps & Hlast & Hnum).
  assert (noDangling (currentGraph st)) as Hnd'.
  { apply (noDangling_sub _ G); [done..|].
    intros e' He'. by eapply elem_of_sublist. }
  unfold rd_body.
  destruct (existsb (λ e', edgesEqual e' e) (edges (currentGraph st))) eqn:Hex;
    simpl.
  - destruct (isConnected (removeEdge (currentGraph st) e)) eqn:Hrm; simpl.
    + (* delete *)
      repeat split; simpl.
      * done.
      * etrans; [apply List_filter_sublist|done].
      * done.
      * intros e' [->|He']%elem_of_cons Hin.
        { apply removeEdge_elem in Hin as [_ Hin].
          by rewrite edgesEqual_refl in Hin. }
        apply removeEdge_elem in Hin as [Hin _].
        specialize (Hkept e' He' Hin).
        destruct (isConnected (removeEdge (removeEdge (currentGraph st) e) e'))
          eqn:Hc; [|done].
        rewrite <- Hkept. symmetry.
        eapply isConnected_mono; [| | |exact Hc].
        -- apply (noDangling_sub _ (currentGraph st)); [done..|].
           by intros e'' [? _]%removeEdge_elem.
        -- done.
        -- intros e'' [[? ?]%removeEdge_elem ?]%removeEdge_elem.
           by apply removeEdge_elem.
      * rewrite !Forall_app. repeat split; [done|..]; by repeat constructor.
      * by rewrite last_snoc, cloneGraph_id.
      * rewrite !length_app. simpl. lia.
    + (* keep *)
      repeat split; simpl; try done.
      * intros e' [->|He']%elem_of_cons Hin; [done|by apply Hkept].
      * rewrite !Forall_app. repeat split; [done|..]; by repeat constructor.
      * by rewrite last_snoc, cloneGraph_id.
      * rewrite !length_app. simpl. lia.
  - (* the edge is gone already *)
    repeat split; try done.
    intros e' [->|He']%elem_of_cons Hin; [|by apply Hkept].
    by apply existsb_edgesEqual_false in Hex.
Qed.

Lemma rd_fold_inv G l :
  noDangling G →
  ∀ processed st, rd_inv G processed st →
                  rd_inv G (rev l ++ processed) (foldl rd_body st l).
Proof.
  intros Hnd. induction l as [|e l IH]; intros processed st Hinv; [done|].
  simpl. rewrite <- app_assoc. apply IH. by apply rd_body_inv.
Qed.

Lemma List_filter_all {A} (f : A → bool) l :
  Forall (λ a, f a = true) l → List.filter f l = l.
Proof.
  induction 1 as [|a l Ha _ IH]; simpl; [done|]. by rewrite Ha, IH.
Qed.

(** An edge whose removal makes [isConnected] fail is a bridge: without
    it its endpoints are no longer joined. *)
Lemma bridge_not_rejoined g e :
  noDangling g → isConnected g = true →
  isConnected (removeEdge g e) = false →
  ¬ reach (List.filter (λ e', negb (edgesEqual e' e)) (edges g)) (u e) (v e).
Proof.
  intros Hnd Hc Hrm Hr.
  apply isConnected_spec in Hc as [Hnodup Hconn]; [|done].
  assert (isConnected (removeEdge g e) = true) as Ht; [|congruence].
  apply isConnected_spec.
  - apply (noDangling_sub _ g); [done..|]. by intros e' [? _]%removeEdge_elem.
  - split; [done|]. intros a b Ha Hb. simpl.
    apply reach_reroute; [done|]. by apply Hconn.
Qed.

(** ** C1 *)

(** C1. For a graph with at least one edge and no validation error, the
    trace of [reverseDelete] has a last step that is not [complete], and
    the snapshot of that step has the vertices of the graph, a
    sub-sequence of its edges, one edge fewer than vertices, and is
    connected, both as [isConnected] decides it and in the sense that any
    two vertices are joined by a path. *)
Theorem reverseDelete_spanning_tree (G : Graph) :
  edges G ≠ [] → validateGraph G = [] →
  ∃ s, lastNonComplete (reverseDelete G) = Some s
       ∧ vertices (Step.snapshot s) = vertices G
       ∧ edges (Step.snapshot s) `sublist_of` edges G
       ∧ length (edges (Step.snapshot s)) = (length (vertices G) - 1)%nat
       ∧ isConnected (Step.snapshot s) = true
       ∧ Connected (Step.snapshot s).
Proof.
  intros Hedges Hval.
  destruct (validateGraph_nil G Hval) as (Hne & Hd & Hnd & Hconn).
  unfold reverseDelete.
  pose proof (js_sort_perm (λ a b, num_sub (w b) (w a)) (edges G)) as Hperm.
  fold (sortEdges (edges G)) in Hperm.
  destruct (sortEdges (edges G)) as [|first sorted] eqn:Hsort.
  { by apply Permutation_nil in Hperm. }
  match goal with
  | |- context [foldl rd_body ?st0 _] => set (st := foldl rd_body st0 (first :: sorted));
      assert (rd_inv G [] st0) as Hinv0
  end.
  { rewrite !cloneGraph_id. unfold rd_inv. simpl.
    repeat split; try done.
    - intros e He. by apply elem_of_nil in He.
    - by repeat constructor. }
  pose proof (rd_fold_inv G (first :: sorted) Hnd [] _ Hinv0) as Hinv.
  fold st in Hinv. rewrite app_nil_r in Hinv.
  destruct Hinv as (Hv & Hsub & Hc & Hkept & Hsteps & Hlast & Hnum).
  destruct (last (rd_steps st)) as [s|] eqn:Hl; [|done].
  simpl in Hlast. injection Hlast as Hsnap.
  assert (noDangling (currentGraph st)) as Hnd'.
  { apply (noDangling_sub _ G); [done..|].
    intros e He. by eapply elem_of_sublist. }
  exists s. rewrite Hsnap. split; [|split; [done|split; [done|]]].
  - unfold lastNonComplete. rewrite List.filter_app. simpl.
    rewrite app_nil_r, List_filter_all; [done|].
    eapply Forall_impl; [exact Hsteps|]. intros s' Hs'. simpl.
    by rewrite bool_decide_eq_false_2.
  - pose proof Hc as Hspec.
    apply isConnected_spec in Hspec as [Hnodup Hconn']; [|done].
    split; [|done].
    assert (length (edges (currentGraph st)) + 1 = length (vertices (currentGraph st)))%nat
      as Hcount; [|rewrite Hv in Hcount; lia].
    apply tree_edge_count; try done.
    + by rewrite Hv.
    + by eapply distinct_sublist.
    + intros e He. apply bridge_not_rejoined; [done..|].
      apply Hkept; [|done].
      apply list_elem_of_In. apply -> in_rev. apply list_elem_of_In.
      rewrite Hperm. by eapply elem_of_sublist.
Qed.

Lemma reverseDelete_spanning_tree_witness :
  edges triangle ≠ [] ∧ validateGraph triangle = []
  ∧ ∃ s, lastNonComplete (reverseDelete triangle) = Some s
         ∧ length (edges (Step.snapshot s)) = (length (vertices triangle) - 1)%nat
         ∧ isConnected (Step.snapshot s) = true.
Proof.
  assert (edges triangle ≠ []) as He by (simpl; congruence).
  assert (validateGraph triangle = []) as Hv by (vm_compute; reflexivity).
  split; [exact He|]. split; [exact Hv|].
  destruct (reverseDelete_spanning_tree triangle He Hv)
    as (s & H1 & _ & _ & H2 & H3 & _).
  exists s. split; [exact H1|]. split; [exact H2|exact H3].
Defined.

(** * Further properties *)

(** ** Graph primitives *)

Lemma bool_eq_of_iff (a b : bool) : (a = true ↔ b = true) → a = b.
Proof. destruct a, b; intros [H1 H2]; try done; [symmetry|]; auto. Qed.

Lemma edgesEqual_sym e1 e2 : edgesEqual e1 e2 = edgesEqual e2 e1.
Proof.
  apply bool_eq_of_iff. rewrite !edgesEqual_true. split; intros [[? ?]|[? ?]]; auto.
Qed.

Lemma edgesEqual_trans e1 e2 e3 :
  edgesEqual e1 e2 = true → edgesEqual e2 e3 = true → edgesEqual e1 e3 = true.
Proof.
  rewrite !edgesEqual_true.
  intros [[-> ->]|[-> ->]] [[<- <-]|[<- <-]]; auto.
Qed.

(** [edgesEqual] is an equivalence on edges that does not look at the
    weight. *)
Theorem edgesEqual_equivalence :
  (∀ e, edgesEqual e e = true)
  ∧ (∀ e1 e2, edgesEqual e1 e2 = edgesEqual e2 e1)
  ∧ (∀ e1 e2 e3, edgesEqual e1 e2 = true → edgesEqual e2 e3 = true →
                 edgesEqual e1 e3 = true)
  ∧ (∀ e1 e2 w1 w2,
       edgesEqual (mkEdge (u e1) (v e1) w1) (mkEdge (u e2) (v e2) w2)
       = edgesEqual e1 e2).
Proof.
  split; [apply edgesEqual_refl|]. split; [apply edgesEqual_sym|].
  split; [apply edgesEqual_trans|]. done.
Qed.

Lemma edgesEqual_equivalence_witness :
  edgesEqual (mkEdge "A" "B" (Num 1)) (mkEdge "B" "A" (Num 2)) = true
  ∧ edgesEqual (mkEdge "B" "A" (Num 2)) (mkEdge "A" "B" NaN) = true
  ∧ edgesEqual (mkEdge "A" "B" (Num 1)) (mkEdge "A" "B" NaN) = true.
Proof.
  assert (edgesEqual (mkEdge "A" "B" (Num 1)) (mkEdge "B" "A" (Num 2)) = true)
    as H1 by reflexivity.
  assert (edgesEqual (mkEdge "B" "A" (Num 2)) (mkEdge "A" "B" NaN) = true)
    as H2 by reflexivity.
  split; [exact H1|]. split; [exact H2|].
  exact (proj1 (proj2 (proj2 edgesEqual_equivalence)) _ _ _ H1 H2).
Defined.

Lemma List_filter_comm {A} (f g : A → bool) l :
  List.filter f (List.filter g l) = List.filter g (List.filter f l).
Proof.
  induction l as [|a l IH]; simpl; [done|].
  destruct (f a) eqn:Ef, (g a) eqn:Eg; simpl; rewrite ?Ef, ?Eg, ?IH; done.
Qed.

Lemma List_filter_idem {A} (f : A → bool) l :
  List.filter f (List.filter f l) = List.filter f l.
Proof.
  induction l as [|a l IH]; simpl; [done|].
  destruct (f a) eqn:Ef; simpl; rewrite ?Ef, ?IH; done.
Qed.

(** Removals commute, a second removal of the same edge changes nothing,
    and after a removal the existence test of [reverseDelete] fails for
    that edge. *)
Theorem removeEdge_compose (g : Graph) (e1 e2 : Edge) :
  removeEdge (removeEdge g e1) e2 = removeEdge (removeEdge g e2) e1
  ∧ removeEdge (removeEdge g e1) e1 = removeEdge g e1
  ∧ existsb (λ e', edgesEqual e' e1) (edges (removeEdge g e1)) = false.
Proof.
  unfold removeEdge. simpl. split; [|split].
  - f_equal. apply List_filter_comm.
  - f_equal. apply List_filter_idem.
  - destruct (existsb _ _) eqn:E; [|done].
    apply existsb_exists in E as (e' & [_ Hin]%filter_In & He').
    by rewrite He' in Hin.
Qed.

(** Removing an edge that was just added to a graph with no edge on that
    pair gives the graph back. *)
Theorem removeEdge_addEdge (g : Graph) (e : Edge) :
  existsb (λ e', edgesEqual e' e) (edges g) = false →
  removeEdge (addEdge g e) e = g.
Proof.
  intros Hex. destruct g as [vs es]. unfold removeEdge, addEdge. simpl in *.
  f_equal. rewrite List.filter_app. simpl. rewrite edgesEqual_refl. simpl.
  rewrite app_nil_r. apply List_filter_all.
  apply Forall_forall. intros e' He'.
  destruct (edgesEqual e' e) eqn:E; [|done].
  assert (existsb (λ e', edgesEqual e' e) es = true) as Ht; [|congruence].
  apply existsb_exists. exists e'. split; [by apply list_elem_of_In|done].
Qed.

Lemma removeEdge_addEdge_witness :
  existsb (λ e', edgesEqual e' (mkEdge "A" "B" (Num 1))) (edges twoIsolated) = false
  ∧ removeEdge (addEdge twoIsolated (mkEdge "A" "B" (Num 1))) (mkEdge "A" "B" (Num 1))
    = twoIsolated.
Proof.
  assert (existsb (λ e', edgesEqual e' (mkEdge "A" "B" (Num 1)))
                  (edges twoIsolated) = false) as H by reflexivity.
  split; [exact H|]. exact (removeEdge_addEdge twoIsolated _ H).
Defined.

(** On a graph whose edges join vertices only, [isConnected] answers
    [true] exactly when no vertex is listed twice and any two vertices are
    joined by a path of edges. *)
Theorem isConnected_decides_connectivity (g : Graph) :
  noDangling g → isConnected g = true ↔ NoDup (vertices g) ∧ Connected g.
Proof. apply isConnected_spec. Qed.

Lemma noDangling_twoIsolated : noDangling twoIsolated.
Proof. intros e He. by apply elem_of_nil in He. Qed.

Lemma isConnected_decides_connectivity_witness :
  noDangling twoIsolated ∧ ¬ Connected twoIsolated.
Proof.
  split; [exact noDangling_twoIsolated|].
  intros Hc.
  assert (isConnected twoIsolated = true) as Ht; [|discriminate Ht].
  apply (isConnected_decides_connectivity twoIsolated noDangling_twoIsolated).
  split; [|exact Hc]. simpl.
  apply NoDup_cons. split; [|apply NoDup_singleton].
  intros Hin. apply list_elem_of_singleton in Hin. discriminate Hin.
Defined.

(** Connectivity survives adding an edge between vertices, and a graph
    that is connected without one of its edges is connected with it. *)
Theorem isConnected_more_edges (g : Graph) (e : Edge) :
  noDangling g →
  (u e ∈ vertices g → v e ∈ vertices g →
   isConnected g = true → isConnected (addEdge g e) = true)
  ∧ (isConnected (removeEdge g e) = true → isConnected g = true).
Proof.
  intros Hnd. split.
  - intros Hu Hv. apply isConnected_mono; [|done|].
    + intros e' [He'|He']%elem_of_app; [by apply Hnd|].
      apply list_elem_of_singleton in He' as ->. done.
    + intros e' He'. apply elem_of_app. by left.
  - apply isConnected_mono; [done..|]. by intros e' [? _]%removeEdge_elem.
Qed.

Lemma noDangling_triangle : noDangling triangle.
Proof.
  intros e He. simpl in He.
  repeat (apply elem_of_cons in He as [->|He]); [..|by apply elem_of_nil in He];
    simpl; split; repeat (first [by left | right]).
Qed.

Lemma isConnected_more_edges_witness :
  noDangling triangle
  ∧ isConnected (removeEdge triangle (mkEdge "A" "C" (Num 5))) = true
  ∧ isConnected triangle = true.
Proof.
  assert (isConnected (removeEdge triangle (mkEdge "A" "C" (Num 5))) = true) as H
    by (vm_compute; reflexivity).
  split; [exact noDangling_triangle|]. split; [exact H|].
  exact (proj2 (isConnected_more_edges triangle _ noDangling_triangle) H).
Defined.

(** ** The label generator *)

Lemma ascii_succ_above (c : ascii) :
  (nat_of_ascii c < 255)%nat →
  String.leb (String (ascii_of_nat (S (nat_of_ascii c))) EmptyString)
             (String c EmptyString) = false.
Proof.
  intros Hc. unfold String.leb. simpl.
  assert (Ascii.compare (ascii_of_nat (S (nat_of_ascii c))) c = Gt) as ->; [|done].
  unfold Ascii.compare. apply N.compare_gt_iff.
  unfold nat_of_ascii in *.
  rewrite <- (N2Nat.id (N_of_ascii (ascii_of_nat _))).
  fold (nat_of_ascii (ascii_of_nat (S (N.to_nat (N_of_ascii c))))).
  rewrite nat_ascii_embedding by lia. lia.
Qed.

(** When the greatest label is one character below [Z], the generated
    label is not yet a vertex. *)
Theorem getNextVertexLabel_fresh (g : Graph) (c : ascii) :
  String c EmptyString ∈ vertices g →
  (∀ a, a ∈ vertices g → str_le a (String c EmptyString)) →
  (nat_of_ascii c < nat_of_ascii "Z"%char)%nat →
  (getNextVertexLabel g).1 = String (ascii_of_nat (S (nat_of_ascii c))) EmptyString
  ∧ (getNextVertexLabel g).1 ∉ vertices g.
Proof.
  intros Hm Hmax Hc.
  assert ((getNextVertexLabel g).1
          = String (ascii_of_nat (S (nat_of_ascii c))) EmptyString) as Hl.
  { unfold getNextVertexLabel.
    rewrite (str_sort_last_max _ _ Hm Hmax).
    rewrite bool_decide_eq_true_2; [done|]. lia. }
  split; [done|]. rewrite Hl. intros Hin.
  apply Hmax in Hin. unfold str_le in Hin.
  rewrite ascii_succ_above in Hin; [done|].
  change (nat_of_ascii "Z") with 90%nat in Hc. lia.
Qed.

Lemma getNextVertexLabel_fresh_witness :
  "B" ∈ vertices (graph session_BA)
  ∧ (∀ a, a ∈ vertices (graph session_BA) → str_le a "B")
  ∧ (getNextVertexLabel (graph session_BA)).1 ∉ vertices (graph session_BA).
Proof.
  assert ("B" ∈ vertices (graph session_BA)) as Hm.
  { change (vertices (graph session_BA)) with ["B"; "A"]. by left. }
  assert (∀ a, a ∈ vertices (graph session_BA) → str_le a "B") as Hmax.
  { change (vertices (graph session_BA)) with ["B"; "A"].
    intros a Ha. apply elem_of_cons in Ha as [->|Ha]; [reflexivity|].
    apply list_elem_of_singleton in Ha as ->. reflexivity. }
  assert (nat_of_ascii "B" < nat_of_ascii "Z")%nat as Hc by (vm_compute; lia).
  split; [exact Hm|]. split; [exact Hmax|].
  exact (proj2 (getNextVertexLabel_fresh (graph session_BA) "B"%char Hm Hmax Hc)).
Defined.

(** Whatever label it answers, [getNextVertexLabel] leaves the graph with
    the same vertices in ascending order and with its edges untouched. *)
Theorem getNextVertexLabel_reorders (g : Graph) :
  vertices (getNextVertexLabel g).2 ≡ₚ vertices g
  ∧ StronglySorted str_le (vertices (getNextVertexLabel g).2)
  ∧ edges (getNextVertexLabel g).2 = edges g.
Proof.
  rewrite getNextVertexLabel_leaves_sorted. simpl.
  split; [apply str_sort_perm|]. split; [apply str_sort_sorted|done].
Qed.

(** The first twenty-six vertices a fresh session generates are [A] to
    [Z], in that order; the next one is [A26]. *)
Theorem autoVertices_alphabet :
  vertices (graph (autoVertices 27))
  = ["A"; "B"; "C"; "D"; "E"; "F"; "G"; "H"; "I"; "J"; "K"; "L"; "M"; "N";
     "O"; "P"; "Q"; "R"; "S"; "T"; "U"; "V"; "W"; "X"; "Y"; "Z"; "A26"]
  ∧ ∀ n, (n ≤ 27)%nat →
         vertices (graph (autoVertices n))
         = take n (vertices (graph (autoVertices 27))).
Proof.
  split; [vm_compute; reflexivity|].
  intros n Hn.
  do 28 (destruct n as [|n]; [vm_compute; reflexivity|]). lia.
Qed.

Lemma autoVertices_alphabet_witness :
  vertices (graph (autoVertices 3)) = ["A"; "B"; "C"].
Proof.
  rewrite (proj2 autoVertices_alphabet 3%nat); [|lia].
  rewrite (proj1 autoVertices_alphabet). reflexivity.
Defined.

(** ** Validation *)

Lemma isConnected_perm (g g' : Graph) :
  noDangling g → vertices g' ≡ₚ vertices g → edges g' ≡ₚ edges g →
  isConnected g' = isConnected g.
Proof.
  intros Hnd Hv He.
  assert (noDangling g') as Hnd' by (by apply (noDangling_perm g)).
  apply bool_eq_of_iff.
  rewrite (isConnected_spec g Hnd), (isConnected_spec g' Hnd').
  split; intros [Hn Hc]; split.
  - by rewrite <- Hv.
  - by apply (Connected_perm g').
  - by rewrite Hv.
  - by apply (Connected_perm g).
Qed.

Lemma danglingScan_perm vs vs' es :
  vs' ≡ₚ vs → danglingScan vs' es = danglingScan vs es.
Proof.
  intros Hv. induction es as [|e es IH]; simpl; [done|]. rewrite IH.
  rewrite (bool_decide_ext (u e ∈ vs') (u e ∈ vs)) by (by rewrite Hv).
  rewrite (bool_decide_ext (v e ∈ vs') (v e ∈ vs)) by (by rewrite Hv).
  done.
Qed.

Lemma validateGraph_perm_vertices (vs vs' : list string) (es : list Edge) :
  vs' ≡ₚ vs → validateGraph (mkGraph vs' es) = validateGraph (mkGraph vs es).
Proof.
  intros Hv. unfold validateGraph, structuralErrors. simpl.
  rewrite (Permutation_length Hv), (danglingScan_perm vs vs' es Hv).
  case_bool_decide; [done|].
  destruct (bool_decide (length _ = 0%nat)) eqn:E; simpl; [|done].
  apply bool_decide_eq_true in E. apply length_zero_iff_nil in E.
  apply app_eq_nil in E as [_ E]. apply app_eq_nil in E as [_ E].
  apply app_eq_nil in E as [_ E].
  rewrite (isConnected_perm (mkGraph vs es) (mkGraph vs' es)); [done| |done..].
  intros e He. by apply (danglingScan_nil vs es).
Qed.

(** The order in which the vertices are listed does not change the
    validation result. *)
Theorem validateGraph_vertex_order (vs vs' : list string) (es : list Edge) :
  vs' ≡ₚ vs → validateGraph (mkGraph vs' es) = validateGraph (mkGraph vs es).
Proof. apply validateGraph_perm_vertices. Qed.

Lemma validateGraph_vertex_order_witness :
  ["C"; "A"; "B"] ≡ₚ vertices triangle
  ∧ validateGraph (mkGraph ["C"; "A"; "B"] (edges triangle)) = [].
Proof.
  assert (["C"; "A"; "B"] ≡ₚ vertices triangle) as Hv
    by apply (Permutation_cons_append ["A"; "B"] "C").
  split; [exact Hv|].
  rewrite (validateGraph_vertex_order _ _ (edges triangle) Hv).
  vm_compute. reflexivity.
Defined.

Lemma selfLoopScan_nil es : selfLoopScan es = [] → ∀ e, e ∈ es → u e ≠ v e.
Proof.
  induction es as [|e es IH]; simpl; intros Hnil e' He'.
  - by apply elem_of_nil in He'.
  - apply app_eq_nil in Hnil as [H1 H2].
    apply elem_of_cons in He' as [->|He']; [|by apply IH].
    by case_bool_decide.
Qed.

Lemma weightScan_nil es :
  weightScan es = [] → ∀ e, e ∈ es → ∃ z, w e = Num z ∧ (0 ≤ z)%Z.
Proof.
  induction es as [|e es IH]; simpl; intros Hnil e' He'.
  - by apply elem_of_nil in He'.
  - apply app_eq_nil in Hnil as [H1 H2].
    apply elem_of_cons in He' as [->|He']; [|by apply IH].
    destruct (w e) as [|z]; simpl in H1; [done|].
    case_bool_decide; [done|]. exists z. split; [done|lia].
Qed.

Lemma validateGraph_wellFormed (g : Graph) : validateGraph g = [] → wellFormed g.
Proof.
  intros Hval.
  destruct (validateGraph_nil g Hval) as (Hne & Hd & Hnd & Hc).
  rewrite (validateGraph_nonempty g Hne) in Hval.
  destruct (structuralErrors g) as [|err errs] eqn:Hs;
    [|by destruct (_ && _)].
  unfold structuralErrors in Hs.
  apply app_eq_nil in Hs as [_ Hs]. apply app_eq_nil in Hs as [Hloop Hs].
  apply app_eq_nil in Hs as [Hw _].
  apply isConnected_spec in Hc as [Hnodup Hconn]; [|done].
  unfold wellFormed. split; [done|]. split; [done|]. split; [done|].
  split; [by apply selfLoopScan_nil|]. split; [by apply weightScan_nil|]. done.
Qed.

(** A graph on which validation reports nothing is well formed: it has a
    vertex, lists none twice, has no two edges on one pair, no loop, only
    non-negative numeric weights, no edge to a missing vertex, and is
    connected. *)
Theorem validateGraph_sound (g : Graph) : validateGraph g = [] → wellFormed g.
Proof. apply validateGraph_wellFormed. Qed.

Lemma validateGraph_sound_witness :
  validateGraph triangle = [] ∧ wellFormed triangle.
Proof.
  assert (validateGraph triangle = []) as H by (vm_compute; reflexivity).
  split; [exact H|exact (validateGraph_sound triangle H)].
Defined.

Lemma dash_key_inj (a a' b b' : string) :
  dashFree a = true → dashFree a' = true →
  a +:+ "-" +:+ b = a' +:+ "-" +:+ b' → a = a' ∧ b = b'.
Proof.
  revert a'. induction a as [|c a IH]; intros [|c' a'] Ha Ha' Heq; simpl in *.
  - by injection Heq.
  - injection Heq as <- _. by rewrite bool_decide_eq_true_2 in Ha'.
  - injection Heq as -> _. by rewrite bool_decide_eq_true_2 in Ha.
  - injection Heq as -> Heq.
    apply andb_prop in Ha as [_ Ha]. apply andb_prop in Ha' as [_ Ha'].
    destruct (IH a' Ha Ha' Heq) as [-> ->]. done.
Qed.

Lemma dupScan_clean (es : list Edge) :
  ∀ (seen : gset string) (errs : list ValidationError.t),
    distinctEdges es →
    (∀ e, e ∈ es → dashFree (u e) = true ∧ dashFree (v e) = true) →
    (∀ k, k ∈ seen →
          ∃ e0, (k = u e0 +:+ "-" +:+ v e0 ∨ k = v e0 +:+ "-" +:+ u e0)
                ∧ dashFree (u e0) = true ∧ dashFree (v e0) = true
                ∧ ∀ e, e ∈ es → edgesEqual e e0 = false) →
    (foldl dupScan_step (seen, errs) es).2 = errs.
Proof.
  induction es as [|e es IH]; intros seen errs Hd Hdash Hseen; simpl; [done|].
  inversion Hd as [|? ? Hne Hd']; subst.
  destruct (Hdash e) as [Hu Hv]; [by left|].
  assert (∀ k, k ∈ seen → k ≠ u e +:+ "-" +:+ v e ∧ k ≠ v e +:+ "-" +:+ u e)
    as Hfresh.
  { intros k Hk. destruct (Hseen k Hk) as (e0 & Hk0 & Hu0 & Hv0 & Hne0).
    assert (edgesEqual e e0 = false) as Hee by (apply Hne0; by left).
    split; intros ->; destruct Hk0 as [Hk0|Hk0];
      apply dash_key_inj in Hk0 as [? ?]; try done;
      assert (edgesEqual e e0 = true) as Ht
        by (apply edgesEqual_true; auto); congruence. }
  unfold dupScan_step at 2. simpl.
  rewrite !bool_decide_eq_false_2; simpl.
  - apply IH; [done|intros e' He'; apply Hdash; by right|].
    intros k Hk. apply elem_of_union in Hk as [Hk|Hk];
      [|apply elem_of_union in Hk as [Hk|Hk]].
    + apply elem_of_singleton in Hk as ->. exists e.
      split; [by right|]. split; [done|]. split; [done|]. done.
    + apply elem_of_singleton in Hk as ->. exists e.
      split; [by left|]. split; [done|]. split; [done|]. done.
    + destruct (Hseen k Hk) as (e0 & Hk0 & Hu0 & Hv0 & Hne0).
      exists e0. split; [done|]. split; [done|]. split; [done|].
      intros e' He'. apply Hne0. by right.
  - intros Hin. by destruct (Hfresh _ Hin) as [_ ?].
  - intros Hin. by destruct (Hfresh _ Hin) as [? _].
Qed.

Lemma selfLoopScan_clean es : (∀ e, e ∈ es → u e ≠ v e) → selfLoopScan es = [].
Proof.
  induction es as [|e es IH]; intros H; simpl; [done|].
  rewrite bool_decide_eq_false_2 by (apply H; by left). simpl.
  apply IH. intros e' He'. apply H. by right.
Qed.

Lemma weightScan_clean es :
  (∀ e, e ∈ es → ∃ z, w e = Num z ∧ (0 ≤ z)%Z) → weightScan es = [].
Proof.
  induction es as [|e es IH]; intros H; simpl; [done|].
  destruct (H e) as (z & -> & Hz); [by left|]. simpl.
  rewrite bool_decide_eq_false_2 by lia. simpl.
  apply IH. intros e' He'. apply H. by right.
Qed.

Lemma danglingScan_clean vs es :
  (∀ e, e ∈ es → u e ∈ vs ∧ v e ∈ vs) → danglingScan vs es = [].
Proof.
  induction es as [|e es IH]; intros H; simpl; [done|].
  destruct (H e) as [Hu Hv]; [by left|].
  rewrite !bool_decide_eq_true_2 by done. simpl.
  apply IH. intros e' He'. apply H. by right.
Qed.

(** Conversely, validation reports nothing on a well-formed graph whose
    edge endpoints contain no [-]. *)
Theorem validateGraph_complete (g : Graph) :
  wellFormed g →
  (∀ e, e ∈ edges g → dashFree (u e) = true ∧ dashFree (v e) = true) →
  validateGraph g = [].
Proof.
  intros (Hne & Hnodup & Hd & Hloop & Hw & Hnd & Hconn) Hdash.
  rewrite (validateGraph_nonempty g Hne). unfold structuralErrors, duplicateScan.
  rewrite (dupScan_clean (edges g) ∅ [] Hd Hdash);
    [|intros k Hk; by apply not_elem_of_empty in Hk].
  rewrite (selfLoopScan_clean _ Hloop), (weightScan_clean _ Hw),
    (danglingScan_clean _ _ Hnd). simpl.
  assert (isConnected g = true) as -> by (by apply isConnected_spec).
  done.
Qed.

Lemma wellFormed_triangle : wellFormed triangle.
Proof. apply validateGraph_wellFormed. vm_compute. reflexivity. Qed.

Lemma validateGraph_complete_witness :
  wellFormed triangle
  ∧ (∀ e, e ∈ edges triangle → dashFree (u e) = true ∧ dashFree (v e) = true)
  ∧ validateGraph triangle = [].
Proof.
  assert (∀ e, e ∈ edges triangle → dashFree (u e) = true ∧ dashFree (v e) = true)
    as Hdash.
  { intros e He. simpl in He.
    repeat (apply elem_of_cons in He as [->|He]); [..|by apply elem_of_nil in He];
      split; reflexivity. }
  split; [exact wellFormed_triangle|]. split; [exact Hdash|].
  exact (validateGraph_complete triangle wellFormed_triangle Hdash).
Defined.

Lemma dupScan_step_grows st e :
  st.1 ⊆ (dupScan_step st e).1 ∧ ∃ more, (dupScan_step st e).2 = st.2 ++ more.
Proof.
  unfold dupScan_step. destruct (_ || _); simpl.
  - split; [done|]. by eexists.
  - split; [set_solver|]. exists []. by rewrite app_nil_r.
Qed.

Lemma dupScan_step_remembers st e :
  u e +:+ "-" +:+ v e ∈ (dupScan_step st e).1
  ∨ v e +:+ "-" +:+ u e ∈ (dupScan_step st e).1.
Proof.
  unfold dupScan_step.
  destruct (bool_decide (u e +:+ "-" +:+ v e ∈ st.1)) eqn:E1; simpl.
  - apply bool_decide_eq_true in E1. by left.
  - destruct (bool_decide (v e +:+ "-" +:+ u e ∈ st.1)) eqn:E2; simpl.
    + apply bool_decide_eq_true in E2. by right.
    + left. set_solver.
Qed.

Lemma dupScan_grows (es : list Edge) :
  ∀ st, st.1 ⊆ (foldl dupScan_step st es).1
        ∧ ∃ more, (foldl dupScan_step st es).2 = st.2 ++ more.
Proof.
  induction es as [|e es IH]; intros st; simpl.
  - split; [done|]. exists []. by rewrite app_nil_r.
  - destruct (IH (dupScan_step st e)) as [Hsub (more & Hmore)].
    destruct (dupScan_step_grows st e) as [Hsub' (more' & Hmore')].
    split; [by etrans|].
    exists (more' ++ more). by rewrite Hmore, Hmore', app_assoc.
Qed.

Lemma dupScan_remembers (es : list Edge) :
  ∀ st e, e ∈ es →
          u e +:+ "-" +:+ v e ∈ (foldl dupScan_step st es).1
          ∨ v e +:+ "-" +:+ u e ∈ (foldl dupScan_step st es).1.
Proof.
  induction es as [|e0 es IH]; intros st e He; simpl.
  - by apply elem_of_nil in He.
  - apply elem_of_cons in He as [->|He]; [|by apply IH].
    destruct (dupScan_grows es (dupScan_step st e0)) as [Hsub _].
    destruct (dupScan_step_remembers st e0) as [H|H]; [left|right]; by apply Hsub.
Qed.

(** An edge on the same pair as an earlier edge of the list is reported as
    a duplicate. *)
Theorem validateGraph_reports_duplicates (g : Graph) (l1 l2 l3 : list Edge)
    (e1 e2 : Edge) :
  vertices g ≠ [] →
  edges g = l1 ++ e1 :: l2 ++ e2 :: l3 →
  edgesEqual e1 e2 = true →
  mkError duplicate_edge ("Duplicate edge found: " +:+ edge_label e2) (Some e2)
  ∈ validateGraph g.
Proof.
  intros Hne Hes Heq.
  assert (mkError duplicate_edge ("Duplicate edge found: " +:+ edge_label e2)
                  (Some e2) ∈ duplicateScan (edges g)) as Hin.
  { unfold duplicateScan. rewrite Hes.
    replace (l1 ++ e1 :: l2 ++ e2 :: l3) with ((l1 ++ e1 :: l2) ++ e2 :: l3)
      by (by rewrite <- app_assoc).
    rewrite foldl_app. simpl.
    set (st := foldl dupScan_step (∅, []) (l1 ++ e1 :: l2)).
    assert (u e1 +:+ "-" +:+ v e1 ∈ st.1 ∨ v e1 +:+ "-" +:+ u e1 ∈ st.1) as Hk.
    { apply dupScan_remembers. apply elem_of_app. right. by left. }
    destruct (dupScan_grows l3 (dupScan_step st e2)) as [_ (more & ->)].
    apply elem_of_app. left.
    apply edgesEqual_true in Heq.
    unfold dupScan_step.
    assert (bool_decide (u e2 +:+ "-" +:+ v e2 ∈ st.1)
            || bool_decide (v e2 +:+ "-" +:+ u e2 ∈ st.1) = true) as ->.
    { apply orb_true_iff. rewrite !bool_decide_eq_true.
      destruct Heq as [[<- <-]|[<- <-]], Hk as [Hk|Hk]; auto. }
    simpl. apply elem_of_app. right. by apply list_elem_of_singleton. }
  rewrite (validateGraph_nonempty g Hne).
  assert (mkError duplicate_edge ("Duplicate edge found: " +:+ edge_label e2)
                  (Some e2) ∈ structuralErrors g) as Hs.
  { unfold structuralErrors. apply elem_of_app. by left. }
  destruct (structuralErrors g) as [|err errs] eqn:E.
  - by apply elem_of_nil in Hs.
  - done.
Qed.

Lemma validateGraph_reports_duplicates_witness :
  mkError duplicate_edge "Duplicate edge found: B-A" (Some (mkEdge "B" "A" (Num 2)))
  ∈ validateGraph (mkGraph ["A"; "B"] [mkEdge "A" "B" (Num 1); mkEdge "B" "A" (Num 2)]).
Proof.
  apply (validateGraph_reports_duplicates
           (mkGraph ["A"; "B"] [mkEdge "A" "B" (Num 1); mkEdge "B" "A" (Num 2)])
           [] [] [] (mkEdge "A" "B" (Num 1)) (mkEdge "B" "A" (Num 2))).
  - simpl. congruence.
  - reflexivity.
  - reflexivity.
Defined.






(** ** The order of processing *)


(** Rounding keeps the sign, which is all the comparator of the sort is
    asked for. *)
Lemma roundDouble_pos (z : Z) : (0 < roundDouble z)%Z ↔ (0 < z)%Z.
Proof.
  unfold roundDouble. case_bool_decide as Hsmall; [done|].
  set (a := Z.abs z) in *.
  assert (2 ^ 53 < a)%Z as Ha by lia.
  assert (53 ≤ Z.log2 a)%Z as Hlog.
  { apply Z.log2_le_pow2; lia. }
  set (e := (Z.log2 a - 52)%Z).
  assert (0 < e)%Z as He by lia.
  assert (0 < Z.shiftr a e)%Z as Hq.
  { rewrite Z.shiftr_div_pow2 by lia.
    apply Z.div_str_pos. split; [apply Z.pow_pos_nonneg; lia|].
    transitivity (2 ^ Z.log2 a)%Z.
    - apply Z.pow_le_mono_r; lia.
    - apply Z.log2_spec. lia. }
  match goal with |- (0 < Z.sgn z * Z.shiftl ?q' e)%Z ↔ _ =>
    assert (0 < Z.shiftl q' e)%Z as Hpos
  end.
  { rewrite Z.shiftl_mul_pow2 by lia.
    apply Z.mul_pos_pos; [|apply Z.pow_pos_nonneg; lia].
    repeat case_bool_decide; try lia. destruct (Z.even _); lia. }
  revert Hpos. generalize (Z.shiftl
    (if bool_decide (a - Z.shiftl (Z.shiftr a e) e < Z.shiftl 1 (e - 1))%Z
     then Z.shiftr a e
     else if bool_decide (Z.shiftl 1 (e - 1) < a - Z.shiftl (Z.shiftr a e) e)%Z
          then Z.shiftr a e + 1
          else if Z.even (Z.shiftr a e) then Z.shiftr a e
               else Z.shiftr a e + 1) e).
  intros k Hk. destruct z; simpl; lia.
Qed.

Lemma num_pos_sub (p q : Z) :
  num_pos (num_sub (Num p) (Num q)) = bool_decide (q < p)%Z.
Proof.
  simpl. apply bool_decide_ext. rewrite roundDouble_pos. lia.
Qed.

Lemma sort_insert_sorted (a : Edge) (l : list Edge) :
  (∀ e, e ∈ a :: l → w e ≠ NaN) →
  StronglySorted heavierFirst l →
  StronglySorted heavierFirst (sort_insert (λ a b, num_sub (w b) (w a)) a l).
Proof.
  intros Hnum Hs. induction Hs as [|b l Hs IH Hb]; simpl.
  - repeat constructor.
  - assert (w a ≠ NaN) as Ha by (apply Hnum; by left).
    assert (w b ≠ NaN) as Hwb by (apply Hnum; right; by left).
    unfold heavierFirst, weightZ in *.
    destruct (w a) as [|za] eqn:Ea; [done|].
    destruct (w b) as [|zb] eqn:Eb; [done|]. simpl.
    case_bool_decide as Hcmp; rewrite roundDouble_pos in Hcmp.
    + constructor.
      * apply IH. intros e [->|He]%elem_of_cons; [by rewrite Ea|].
        apply Hnum. right. by right.
      * rewrite sort_insert_perm. constructor.
        -- rewrite ?Ea, ?Eb. lia.
        -- eapply Forall_impl; [exact Hb|]. intros e He.
           rewrite ?Ea, ?Eb in *. done.
    + constructor; [constructor; [done|]|].
      * eapply Forall_impl; [exact Hb|]. intros e He.
        rewrite ?Ea, ?Eb in *. done.
      * constructor; [rewrite ?Ea, ?Eb; lia|].
        eapply Forall_impl; [exact Hb|]. intros e He.
        rewrite ?Ea, ?Eb in *. simpl in He. lia.
Qed.

Lemma sort_insert_front (a : Edge) (l : list Edge) :
  w a ≠ NaN → (∀ e, e ∈ l → w e ≠ NaN) →
  Forall (heavierFirst a) l →
  sort_insert (λ a b, num_sub (w b) (w a)) a l = a :: l.
Proof.
  intros Ha Hl Hf. destruct l as [|b l]; simpl; [done|].
  apply Forall_cons in Hf as [Hab _].
  assert (w b ≠ NaN) as Hb by (apply Hl; by left).
  unfold heavierFirst, weightZ in Hab.
  destruct (w a) as [|za]; [done|]. destruct (w b) as [|zb]; [done|]. simpl.
  rewrite bool_decide_eq_false_2; [done|rewrite roundDouble_pos; lia].
Qed.

Lemma sortEdges_sorted (es : list Edge) :
  (∀ e, e ∈ es → w e ≠ NaN) → StronglySorted heavierFirst (sortEdges es).
Proof.
  intros Hnum. unfold sortEdges. induction es as [|a es IH]; simpl; [constructor|].
  apply sort_insert_sorted.
  - intros e [->|He]%elem_of_cons; [apply Hnum; by left|].
    rewrite js_sort_perm in He. apply Hnum. by right.
  - apply IH. intros e He. apply Hnum. by right.
Qed.

(** An edge is only ever moved behind edges of another weight. *)
Lemma sort_insert_class (a : Edge) (l : list Edge) (x : number) :
  filter (λ e, w e = x) (sort_insert (λ a b, num_sub (w b) (w a)) a l)
  = filter (λ e, w e = x) (a :: l).
Proof.
  induction l as [|b l IH]; simpl; [done|].
  destruct (num_pos (num_sub (w b) (w a))) eqn:E; [|done].
  assert (w a ≠ w b) as Hab.
  { destruct (w a) as [|za], (w b) as [|zb]; try done. simpl in E.
    apply bool_decide_eq_true in E. rewrite roundDouble_pos in E.
    intros [= ->]. lia. }
  rewrite (filter_cons _ b), IH, !filter_cons.
  repeat case_decide; congruence.
Qed.

(** [sortEdges] rearranges the edges.  When no weight is NaN the result is
    the stable descending order: no edge is followed by a heavier one, and
    the edges of any one weight come in the order they had in the input
    (so a list already in descending order comes back unchanged). *)
Theorem sortEdges_descending (es : list Edge) :
  sortEdges es ≡ₚ es
  ∧ ((∀ e, e ∈ es → w e ≠ NaN) →
     StronglySorted heavierFirst (sortEdges es)
     ∧ (∀ x, filter (λ e, w e = x) (sortEdges es) = filter (λ e, w e = x) es)
     ∧ (StronglySorted heavierFirst es → sortEdges es = es)).
Proof.
  split; [apply js_sort_perm|]. intros Hnum. split; [|split].
  - by apply sortEdges_sorted.
  - intros x. unfold sortEdges. clear Hnum.
    induction es as [|a es IH]; [done|].
    cbn [js_sort]. rewrite sort_insert_class, !filter_cons. by rewrite IH.
  - unfold sortEdges. induction 1 as [|a es Hs IH Ha]; simpl; [done|].
    rewrite IH by (intros e He; apply Hnum; by right).
    apply sort_insert_front; [apply Hnum; by left| |done].
    intros e He. apply Hnum. by right.
Qed.

Lemma sortEdges_descending_witness :
  (∀ e, e ∈ [mkEdge "A" "B" (Num 1); mkEdge "B" "C" (Num 2);
             mkEdge "C" "D" (Num 1); mkEdge "D" "E" (Num 2)] → w e ≠ NaN)
  ∧ sortEdges [mkEdge "A" "B" (Num 1); mkEdge "B" "C" (Num 2);
               mkEdge "C" "D" (Num 1); mkEdge "D" "E" (Num 2)]
    = [mkEdge "B" "C" (Num 2); mkEdge "D" "E" (Num 2);
       mkEdge "A" "B" (Num 1); mkEdge "C" "D" (Num 1)]
  ∧ filter (λ e, w e = Num 1)
           (sortEdges [mkEdge "A" "B" (Num 1); mkEdge "B" "C" (Num 2);
                       mkEdge "C" "D" (Num 1); mkEdge "D" "E" (Num 2)])
    = [mkEdge "A" "B" (Num 1); mkEdge "C" "D" (Num 1)].
Proof.
  set (es := [mkEdge "A" "B" (Num 1); mkEdge "B" "C" (Num 2);
              mkEdge "C" "D" (Num 1); mkEdge "D" "E" (Num 2)]).
  assert (∀ e, e ∈ es → w e ≠ NaN) as Hnum.
  { intros e He. unfold es in He.
    repeat (apply elem_of_cons in He as [->|He]); [..|by apply elem_of_nil in He];
      simpl; congruence. }
  split; [exact Hnum|]. split; [vm_compute; reflexivity|].
  rewrite (proj1 (proj2 (proj2 (sortEdges_descending es) Hnum)) (Num 1)).
  reflexivity.
Defined.

(** ** The shape of a trace *)

(** The three ways one iteration of the loop can go. *)
Lemma rd_body_cases st e :
  (existsb (λ e', edgesEqual e' e) (edges (currentGraph st)) = false
   ∧ rd_body st e = st)
  ∨ (∃ x1 x2,
       existsb (λ e', edgesEqual e' e) (edges (currentGraph st)) = true
       ∧ isConnected (removeEdge (currentGraph st) e) = false
       ∧ rd_body st e
         = mkRd (currentGraph st)
             (rd_steps st ++
              [Step.mk consider e x1 (currentGraph st) (rd_stepNumber st);
               Step.mk keep e x2 (currentGraph st) (S (rd_stepNumber st))])
             (S (S (rd_stepNumber st))))
  ∨ (∃ x1 x2,
       existsb (λ e', edgesEqual e' e) (edges (currentGraph st)) = true
       ∧ isConnected (removeEdge (currentGraph st) e) = true
       ∧ rd_body st e
         = mkRd (removeEdge (currentGraph st) e)
             (rd_steps st ++
              [Step.mk consider e x1 (currentGraph st) (rd_stepNumber st);
               Step.mk delete e x2 (removeEdge (currentGraph st) e)
                       (S (rd_stepNumber st))])
             (S (S (rd_stepNumber st)))).
Proof.
  unfold rd_body.
  destruct (existsb _ _); simpl; [|by left]. right.
  destruct (isConnected _); simpl; rewrite !cloneGraph_id, <- app_assoc; simpl.
  - right. by do 2 eexists.
  - left. by do 2 eexists.
Qed.

Lemma rd_fold_shape (g : Graph) (l : list Edge) :
  ∀ st,
    vertices (currentGraph st) = vertices g →
    rd_stepNumber st = length (rd_steps st) →
    ∃ (new : list Step.t) (ds : list (Edge * StepType)),
      rd_steps (foldl rd_body st l) = rd_steps st ++ new
      ∧ (λ s, (Step.type s, Step.edge s)) <$> new
        = flat_map (λ d, [(consider, d.1); (d.2, d.1)]) ds
      ∧ Forall (λ d, d.2 = keep ∨ d.2 = delete) ds
      ∧ fst <$> ds `sublist_of` l
      ∧ Step.stepNumber <$> new = seq (rd_stepNumber st) (length new)
      ∧ rd_stepNumber (foldl rd_body st l) = length (rd_steps (foldl rd_body st l))
      ∧ vertices (currentGraph (foldl rd_body st l)) = vertices g
      ∧ edges (currentGraph (foldl rd_body st l)) `sublist_of` edges (currentGraph st)
      ∧ Forall (λ s, vertices (Step.snapshot s) = vertices g
                     ∧ edges (Step.snapshot s) `sublist_of` edges (currentGraph st))
               new
      ∧ (new = [] → currentGraph (foldl rd_body st l) = currentGraph st)
      ∧ (new ≠ [] →
         Step.snapshot <$> last new = Some (currentGraph (foldl rd_body st l))).
Proof.
  induction l as [|e l IH]; intros st Hv Hn.
  - exists [], []. simpl. rewrite app_nil_r. repeat split; try done;
      by constructor.
  - simpl.
    destruct (rd_body_cases st e)
      as [[_ ->]|[(x1 & x2 & _ & _ & ->)|(x1 & x2 & _ & _ & ->)]].
    + destruct (IH st Hv Hn)
        as (new & ds & H1 & H2 & H3 & H4 & H5 & H6 & H7 & H8 & H9 & H10 & H11).
      exists new, ds. repeat split; try done. by constructor.
    + match goal with |- context [foldl rd_body ?s l] => set (st1 := s) end.
      destruct (IH st1)
        as (new & ds & H1 & H2 & H3 & H4 & H5 & H6 & H7 & H8 & H9 & H10 & H11).
      { done. }
      { simpl. rewrite length_app. simpl. lia. }
      simpl in *.
      eexists (_ :: _ :: new), ((e, keep) :: ds).
      split; [by rewrite H1, <- app_assoc|].
      split; [by rewrite !fmap_cons, H2|].
      split; [constructor; [by left|done]|].
      split; [rewrite fmap_cons; by constructor|].
      split; [by rewrite !fmap_cons, H5|].
      split; [done|]. split; [done|]. split; [done|].
      split; [repeat (constructor; [done|]); done|].
      split; [done|]. intros _.
      destruct new as [|s new]; [simpl; by rewrite H10|].
      rewrite <- H11 by done. done.
    + match goal with |- context [foldl rd_body ?s l] => set (st1 := s) end.
      destruct (IH st1)
        as (new & ds & H1 & H2 & H3 & H4 & H5 & H6 & H7 & H8 & H9 & H10 & H11).
      { done. }
      { simpl. rewrite length_app. simpl. lia. }
      simpl in *.
      assert (List.filter (λ e', negb (edgesEqual e' e)) (edges (currentGraph st))
              `sublist_of` edges (currentGraph st)) as Hsub
        by apply List_filter_sublist.
      eexists (_ :: _ :: new), ((e, delete) :: ds).
      split; [by rewrite H1, <- app_assoc|].
      split; [by rewrite !fmap_cons, H2|].
      split; [constructor; [by right|done]|].
      split; [rewrite fmap_cons; by constructor|].
      split; [by rewrite !fmap_cons, H5|].
      split; [done|]. split; [done|]. split; [by etrans|].
      split.
      { constructor; [done|]. constructor; [done|].
        eapply Forall_impl; [exact H9|]. intros s [? ?]. split; [done|by etrans]. }
      split; [done|]. intros _.
      destruct new as [|s new]; [simpl; by rewrite H10|].
      rewrite <- H11 by done. done.
Qed.

Lemma reverseDelete_unfold (g : Graph) (first : Edge) (rest : list Edge) :
  sortEdges (edges g) = first :: rest →
  ∃ x0 x3 new ds,
    let st := foldl rd_body
                (mkRd g [Step.mk consider first x0 g 0%nat] 1%nat) (first :: rest) in
    reverseDelete g
    = Step.mk consider first x0 g 0%nat :: new
      ++ [Step.mk complete (default first (last (first :: rest))) x3
                  (currentGraph st) (S (length new))]
    ∧ (λ s, (Step.type s, Step.edge s)) <$> new
      = flat_map (λ d, [(consider, d.1); (d.2, d.1)]) ds
    ∧ Forall (λ d, d.2 = keep ∨ d.2 = delete) ds
    ∧ fst <$> ds `sublist_of` first :: rest
    ∧ Step.stepNumber <$> new = seq 1 (length new)
    ∧ vertices (currentGraph st) = vertices g
    ∧ edges (currentGraph st) `sublist_of` edges g
    ∧ Forall (λ s, vertices (Step.snapshot s) = vertices g
                   ∧ edges (Step.snapshot s) `sublist_of` edges g) new
    ∧ (new = [] → currentGraph st = g)
    ∧ (new ≠ [] → Step.snapshot <$> last new = Some (currentGraph st)).
Proof.
  intros Hsort. unfold reverseDelete. rewrite Hsort, !cloneGraph_id.
  match goal with |- context [foldl rd_body ?s _] => set (st0 := s) end.
  destruct (rd_fold_shape g (first :: rest) st0)
    as (new & ds & H1 & H2 & H3 & H4 & H5 & H6 & H7 & H8 & H9 & H10 & H11);
    [done..|].
  eexists _, _, new, ds. cbv zeta. split; [|repeat split; done].
  rewrite H6, H1. subst st0. cbn [rd_steps app length].
  reflexivity.
Qed.

(** The trace is empty exactly when there is no edge.  Otherwise it opens
    with a [consider] step on the heaviest edge, goes on with, for some of
    the sorted edges in their order, a [consider] step followed by a
    [keep] or a [delete] step on the same edge, and closes with one
    [complete] step on the last sorted edge. *)
Theorem reverseDelete_trace_shape (g : Graph) :
  (reverseDelete g = [] ↔ edges g = [])
  ∧ ∀ first rest, sortEdges (edges g) = first :: rest →
      ∃ ds : list (Edge * StepType),
        (λ s, (Step.type s, Step.edge s)) <$> reverseDelete g
        = (consider, first)
            :: flat_map (λ d, [(consider, d.1); (d.2, d.1)]) ds
            ++ [(complete, default first (last (first :: rest)))]
        ∧ Forall (λ d, d.2 = keep ∨ d.2 = delete) ds
        ∧ fst <$> ds `sublist_of` first :: rest.
Proof.
  split.
  - pose proof (js_sort_perm (λ a b, num_sub (w b) (w a)) (edges g)) as Hperm.
    fold (sortEdges (edges g)) in Hperm.
    destruct (sortEdges (edges g)) as [|first rest] eqn:Hsort.
    + apply Permutation_nil in Hperm. unfold reverseDelete. by rewrite Hsort.
    + destruct (reverseDelete_unfold g first rest Hsort)
        as (x0 & x3 & new & ds & -> & _).
      split; [done|]. intros Hes. rewrite Hes in Hperm.
      symmetry in Hperm. by apply Permutation_nil in Hperm.
  - intros first rest Hsort.
    destruct (reverseDelete_unfold g first rest Hsort)
      as (x0 & x3 & new & ds & -> & H2 & H3 & H4 & _).
    exists ds. split; [|done].
    rewrite fmap_cons, fmap_app, H2. done.
Qed.

Lemma reverseDelete_trace_shape_witness :
  sortEdges (edges triangle)
  = mkEdge "A" "C" (Num 5) :: [mkEdge "B" "C" (Num 4); mkEdge "A" "B" (Num 3)]
  ∧ ∃ ds, (λ s, (Step.type s, Step.edge s)) <$> reverseDelete triangle
          = (consider, mkEdge "A" "C" (Num 5))
              :: flat_map (λ d, [(consider, d.1); (d.2, d.1)]) ds
              ++ [(complete, mkEdge "A" "B" (Num 3))].
Proof.
  assert (sortEdges (edges triangle)
          = mkEdge "A" "C" (Num 5)
              :: [mkEdge "B" "C" (Num 4); mkEdge "A" "B" (Num 3)]) as H
    by reflexivity.
  split; [exact H|].
  destruct (proj2 (reverseDelete_trace_shape triangle) _ _ H) as (ds & Hds & _).
  exists ds. exact Hds.
Defined.

(** The steps of a trace are numbered 0, 1, 2, ... in order; every
    snapshot has the vertices of the input and a sub-sequence of its
    edges; the first snapshot is the input itself, and the closing
    [complete] step shows the same graph as the step before it. *)
Theorem reverseDelete_trace_frames (g : Graph) :
  Step.stepNumber <$> reverseDelete g = seq 0 (length (reverseDelete g))
  ∧ Forall (λ s, vertices (Step.snapshot s) = vertices g
                 ∧ edges (Step.snapshot s) `sublist_of` edges g)
           (reverseDelete g)
  ∧ (edges g ≠ [] →
     Step.snapshot <$> head (reverseDelete g) = Some g
     ∧ Step.type <$> last (reverseDelete g) = Some complete
     ∧ Forall (λ s, Step.type s ≠ complete)
              (take (length (reverseDelete g) - 1) (reverseDelete g))
     ∧ Step.snapshot <$> last (reverseDelete g)
       = Step.snapshot <$> lastNonComplete (reverseDelete g)).
Proof.
  pose proof (js_sort_perm (λ a b, num_sub (w b) (w a)) (edges g)) as Hperm.
  fold (sortEdges (edges g)) in Hperm.
  destruct (sortEdges (edges g)) as [|first rest] eqn:Hsort.
  { apply Permutation_nil in Hperm. unfold reverseDelete. rewrite Hsort.
    split; [done|]. split; [constructor|]. done. }
  destruct (reverseDelete_unfold g first rest Hsort)
    as (x0 & x3 & new & ds & -> & H2 & H3 & H4 & H5 & H6 & H7 & H8 & H9 & H10).
  match type of H6 with vertices (currentGraph ?s) = _ => set (stF := s) in * end.
  clearbody stF.
  assert (Forall (λ s, Step.type s ≠ complete) new) as Hnc.
  { apply Forall_forall. intros s Hs.
    assert ((Step.type s, Step.edge s)
            ∈ flat_map (λ d : Edge * StepType, [(consider, d.1); (d.2, d.1)]) ds)
      as Hin by (rewrite <- H2; apply list_elem_of_fmap; by exists s).
    apply list_elem_of_In, in_flat_map in Hin as (d & Hd & Hin).
    rewrite Forall_forall in H3. specialize (H3 d (proj2 (list_elem_of_In _ _) Hd)).
    simpl in Hin. destruct Hin as [Hin|[Hin|[]]]; injection Hin as Hty _; rewrite <- Hty.
    - done.
    - destruct H3 as [-> | ->]; done. }
  split; [|split].
  - rewrite fmap_cons, fmap_app, H5. simpl.
    rewrite length_app. simpl. replace (length new + 1)%nat with (S (length new)) by lia.
    rewrite seq_S. simpl. done.
  - constructor; [done|]. apply Forall_app. split; [done|].
    constructor; [|constructor]. done.
  - intros _. split; [done|].
    split; [by rewrite app_comm_cons, last_snoc|].
    split.
    { simpl. rewrite length_app. simpl.
      replace (length new + 1 - 0)%nat with (S (length new)) by lia.
      rewrite app_comm_cons, take_app_length'; [|simpl; lia].
      constructor; [done|exact Hnc]. }
    rewrite app_comm_cons, last_snoc. simpl.
    unfold lastNonComplete. simpl. rewrite List.filter_app. simpl.
    rewrite app_nil_r, List_filter_all.
    + destruct new as [|s new]; [simpl; by rewrite H9|].
      rewrite <- H10 by done. done.
    + eapply Forall_impl; [exact Hnc|]. intros s Hs. simpl.
      by rewrite bool_decide_eq_false_2.
Qed.

Lemma reverseDelete_trace_frames_witness :
  edges triangle ≠ []
  ∧ Step.snapshot <$> head (reverseDelete triangle) = Some triangle
  ∧ Step.type <$> last (reverseDelete triangle) = Some complete.
Proof.
  assert (edges triangle ≠ []) as He by (simpl; congruence).
  split; [exact He|].
  destruct (proj2 (proj2 (reverseDelete_trace_frames triangle)) He)
    as (H1 & H2 & _).
  split; [exact H1|exact H2].
Defined.

(** ** Counting steps *)

Lemma countType_app ty l1 l2 :
  countType ty (l1 ++ l2) = (countType ty l1 + countType ty l2)%nat.
Proof. unfold countType. by rewrite List.filter_app, length_app. Qed.

Lemma distinctEdges_perm l l' : l ≡ₚ l' → distinctEdges l → distinctEdges l'.
Proof.
  induction 1 as [|e l l' Hp IH|e1 e2 l|l1 l2 l3 Hp1 IH1 Hp2 IH2]; intros Hd.
  - done.
  - inversion Hd as [|? ? Hne Hd']; subst. constructor; [|by apply IH].
    intros e' He'. apply Hne. by rewrite Hp.
  - inversion Hd as [|? ? Hne1 Hd1]; subst.
    inversion Hd1 as [|? ? Hne2 Hd2]; subst.
    constructor; [|constructor; [|done]].
    + intros e' [->|He']%elem_of_cons.
      * rewrite edgesEqual_sym. apply Hne1. by left.
      * by apply Hne2.
    + intros e' He'. apply Hne1. by right.
  - auto.
Qed.

Lemma distinct_remove_length es e :
  distinctEdges es → e ∈ es →
  (length (List.filter (λ e', negb (edgesEqual e' e)) es) + 1 = length es)%nat.
Proof.
  induction 1 as [|e0 es Hne Hd IH]; intros He; [by apply elem_of_nil in He|].
  simpl. apply elem_of_cons in He as [->|He].
  - rewrite edgesEqual_refl. simpl. rewrite List_filter_all; [lia|].
    apply Forall_forall. intros e' He'. by rewrite (Hne e' He').
  - rewrite edgesEqual_sym, (Hne e He). simpl. rewrite <- IH by done. lia.
Qed.

Lemma rd_fold_counts (l : list Edge) :
  ∀ st,
    distinctEdges l → distinctEdges (edges (currentGraph st)) →
    (∀ e, e ∈ l → e ∈ edges (currentGraph st)) →
    (countType consider (rd_steps (foldl rd_body st l))
     = countType consider (rd_steps st) + length l)%nat
    ∧ (countType keep (rd_steps (foldl rd_body st l))
       + countType delete (rd_steps (foldl rd_body st l))
       = countType keep (rd_steps st) + countType delete (rd_steps st) + length l)%nat
    ∧ (countType delete (rd_steps (foldl rd_body st l))
       + length (edges (currentGraph (foldl rd_body st l)))
       = countType delete (rd_steps st) + length (edges (currentGraph st)))%nat
    ∧ countType complete (rd_steps (foldl rd_body st l))
      = countType complete (rd_steps st)
    ∧ (length (rd_steps (foldl rd_body st l))
       = length (rd_steps st) + 2 * length l)%nat.
Proof.
  induction l as [|e l IH]; intros st Hl Hd Hin; [simpl; lia|].
  inversion Hl as [|? ? Hne Hl']; subst.
  assert (e ∈ edges (currentGraph st)) as He by (apply Hin; by left).
  assert (existsb (λ e', edgesEqual e' e) (edges (currentGraph st)) = true) as Hex.
  { apply existsb_exists. exists e.
    split; [by apply list_elem_of_In|apply edgesEqual_refl]. }
  cbn [foldl].
  destruct (rd_body_cases st e)
    as [[Hno _]|[(x1 & x2 & _ & _ & ->)|(x1 & x2 & _ & _ & ->)]];
    [congruence|..].
  - match goal with |- context [foldl rd_body ?s l] => set (st1 := s) end.
    destruct (IH st1) as (H1 & H2 & H3 & H4 & H5); [done|done|..].
    { intros e' He'. apply Hin. by right. }
    subst st1. cbn [rd_steps currentGraph] in *.
    rewrite !countType_app, length_app in *.
    unfold countType in *. simpl in *. lia.
  - match goal with |- context [foldl rd_body ?s l] => set (st1 := s) end.
    destruct (IH st1) as (H1 & H2 & H3 & H4 & H5); [done|..].
    { simpl. eapply distinct_sublist; [apply List_filter_sublist|done]. }
    { intros e' He'. apply removeEdge_elem. split; [apply Hin; by right|].
      by apply Hne. }
    pose proof (distinct_remove_length _ e Hd He) as Hlen.
    subst st1. cbn [rd_steps currentGraph] in *.
    rewrite !countType_app, length_app in *.
    unfold countType, removeEdge in *. simpl in *. lia.
Qed.

(** Where the loop of [reverseDelete] has been through every edge of a
    graph without dangling or repeated edges, the working graph has one
    edge fewer than there are vertices. *)
Lemma rd_inv_tree G processed st :
  vertices G ≠ [] → noDangling G → distinctEdges (edges G) →
  rd_inv G processed st → (∀ e, e ∈ edges G → e ∈ processed) →
  (length (edges (currentGraph st)) + 1 = length (vertices G))%nat.
Proof.
  intros Hne Hnd Hd (Hv & Hsub & Hc & Hkept & _) Hall.
  assert (noDangling (currentGraph st)) as Hnd'.
  { apply (noDangling_sub _ G); [done..|].
    intros e He. by eapply elem_of_sublist. }
  pose proof Hc as Hspec.
  apply isConnected_spec in Hspec as [Hnodup Hconn']; [|done].
  rewrite <- Hv. apply tree_edge_count; try done.
  - by rewrite Hv.
  - by eapply distinct_sublist.
  - intros e He. apply bridge_not_rejoined; [done..|].
    apply Hkept; [|done]. apply Hall. by eapply elem_of_sublist.
Qed.

(** On a graph with an edge and no validation error the trace has
    [2|E| + 2] steps: [|E| + 1] [consider] steps, [|V| - 1] [keep] steps,
    [|E| - |V| + 1] [delete] steps and one [complete] step. *)
Theorem reverseDelete_step_counts (g : Graph) :
  edges g ≠ [] → validateGraph g = [] →
  (length (reverseDelete g) = 2 * length (edges g) + 2)%nat
  ∧ (countType consider (reverseDelete g) = length (edges g) + 1)%nat
  ∧ (countType keep (reverseDelete g) = length (vertices g) - 1)%nat
  ∧ (countType delete (reverseDelete g) + length (vertices g)
     = length (edges g) + 1)%nat
  ∧ countType complete (reverseDelete g) = 1%nat.
Proof.
  intros Hedges Hval.
  destruct (validateGraph_nil g Hval) as (Hne & Hd & Hnd & Hconn).
  pose proof (js_sort_perm (λ a b, num_sub (w b) (w a)) (edges g)) as Hperm.
  fold (sortEdges (edges g)) in Hperm.
  unfold reverseDelete.
  destruct (sortEdges (edges g)) as [|first rest] eqn:Hsort.
  { by apply Permutation_nil in Hperm. }
  rewrite !cloneGraph_id.
  match goal with |- context [foldl rd_body ?s _] => set (st0 := s) end.
  assert (rd_inv g [] st0) as Hinv0.
  { unfold rd_inv, st0. simpl. repeat split; try done.
    - intros e He. by apply elem_of_nil in He.
    - by repeat constructor. }
  pose proof (rd_fold_inv g (first :: rest) Hnd [] st0 Hinv0) as Hinv.
  rewrite app_nil_r in Hinv.
  assert (length (edges (currentGraph (foldl rd_body st0 (first :: rest)))) + 1
          = length (vertices g))%nat as Htree.
  { apply (rd_inv_tree g _ _ Hne Hnd Hd Hinv). intros e He.
    apply list_elem_of_In. apply -> in_rev. apply list_elem_of_In.
    by rewrite Hperm. }
  destruct (rd_fold_counts (first :: rest) st0) as (H1 & H2 & H3 & H4 & H5).
  { eapply distinctEdges_perm; [symmetry; exact Hperm|done]. }
  { done. }
  { intros e He. simpl. by rewrite <- Hperm. }
  pose proof (Permutation_length Hperm) as Hlen.
  set (stF := foldl rd_body st0 (first :: rest)) in *. clearbody stF.
  rewrite !countType_app, length_app.
  unfold st0 in *. cbn [rd_steps currentGraph] in *.
  unfold countType in *. simpl in *. lia.
Qed.

Lemma reverseDelete_step_counts_witness :
  edges triangle ≠ [] ∧ validateGraph triangle = []
  ∧ length (reverseDelete triangle) = 8%nat
  ∧ countType keep (reverseDelete triangle) = 2%nat.
Proof.
  assert (edges triangle ≠ []) as He by (simpl; congruence).
  assert (validateGraph triangle = []) as Hv by (vm_compute; reflexivity).
  split; [exact He|]. split; [exact Hv|].
  destruct (reverseDelete_step_counts triangle He Hv) as (H1 & _ & H3 & _).
  split; [exact H1|exact H3].
Defined.

(** ** Undo and redo *)

Lemma undo_pops (t : GraphStore.t) (h : list GraphHistoryEntry.t)
    (entry : GraphHistoryEntry.t) :
  steps t = [] → history t = h ++ [entry] →
  graph (undo t) = GraphHistoryEntry.graph entry
  ∧ nodePositions (undo t) = GraphHistoryEntry.nodePositions entry
  ∧ history (undo t) = h
  ∧ future (undo t)
    = GraphHistoryEntry.mk (graph t) (nodePositions t) :: future t
  ∧ steps (undo t) = []
  ∧ validationErrors (undo t) = validateGraph (GraphHistoryEntry.graph entry).
Proof.
  destruct t as [g np st cs ip ps ve sv se ecm hist f]. simpl.
  intros -> ->. unfold undo. simpl.
  rewrite bool_decide_eq_false_2 by (rewrite length_app; simpl; lia).
  simpl. rewrite last_snoc, cloneGraph_id. simpl.
  replace (length (h ++ [entry]) - 1)%nat with (length h)
    by (rewrite length_app; simpl; lia).
  by rewrite take_app_length.
Qed.

Lemma redo_pops (t : GraphStore.t) (f : list GraphHistoryEntry.t)
    (entry : GraphHistoryEntry.t) :
  steps t = [] → future t = entry :: f →
  graph (redo t) = GraphHistoryEntry.graph entry
  ∧ nodePositions (redo t) = GraphHistoryEntry.nodePositions entry
  ∧ history (redo t)
    = history t ++ [GraphHistoryEntry.mk (graph t) (nodePositions t)]
  ∧ future (redo t) = f
  ∧ steps (redo t) = []
  ∧ validationErrors (redo t) = validateGraph (GraphHistoryEntry.graph entry).
Proof.
  destruct t as [g np st cs ip ps ve sv se ecm hist fut]. simpl.
  intros -> ->. unfold redo. simpl. by rewrite cloneGraph_id.
Qed.

(** With an entry on the redo stack and no active trace, [redo] followed
    at once by [undo] gives back the graph, the positions and both
    stacks. *)
Theorem redo_then_undo_restores (s : GraphStore.t) :
  future s ≠ [] → steps s = [] →
  graph (undo (redo s)) = graph s
  ∧ nodePositions (undo (redo s)) = nodePositions s
  ∧ history (undo (redo s)) = history s
  ∧ future (undo (redo s)) = future s.
Proof.
  intros Hf Hs. destruct (future s) as [|[eg enp] f] eqn:Ef; [done|].
  destruct (redo_pops s f _ Hs Ef) as (H1 & H2 & H3 & H4 & H5 & _).
  destruct (undo_pops (redo s) _ _ H5 H3) as (U1 & U2 & U3 & U4 & _).
  rewrite U1, U2, U3, U4, H1, H2, H4. done.
Qed.

Lemma redo_then_undo_restores_witness :
  future session_undone ≠ [] ∧ steps session_undone = []
  ∧ graph (undo (redo session_undone)) = mkGraph ["A"; "B"] [].
Proof.
  assert (future session_undone ≠ []) as Hf by (vm_compute; congruence).
  assert (steps session_undone = []) as Hs by reflexivity.
  split; [exact Hf|]. split; [exact Hs|].
  rewrite (proj1 (redo_then_undo_restores _ Hf Hs)). reflexivity.
Defined.

(** With no trace active, [undo] right after removing a vertex, adding an
    edge that is accepted, changing a weight or removing an edge brings
    back the graph and the positions the action started from, and leaves
    the undo stack as it was before the action. *)
Theorem undo_reverts_mutation (s : GraphStore.t) (label a b : string)
    (wt : number) :
  steps s = [] →
  (graph (undo (removeVertex label s)) = graph s
   ∧ nodePositions (undo (removeVertex label s)) = nodePositions s
   ∧ history (undo (removeVertex label s)) = history s)
  ∧ (existsb (joins a b) (edges (graph s)) = false → a ≠ b →
     graph (undo (store_addEdge a b wt s)) = graph s
     ∧ nodePositions (undo (store_addEdge a b wt s)) = nodePositions s
     ∧ history (undo (store_addEdge a b wt s)) = history s)
  ∧ (graph (undo (updateEdgeWeight a b wt s)) = graph s
     ∧ nodePositions (undo (updateEdgeWeight a b wt s)) = nodePositions s
     ∧ history (undo (updateEdgeWeight a b wt s)) = history s)
  ∧ (graph (undo (store_removeEdge a b s)) = graph s
     ∧ nodePositions (undo (store_removeEdge a b s)) = nodePositions s
     ∧ history (undo (store_removeEdge a b s)) = history s).
Proof.
  intros Hs.
  destruct (mutations_push_when_idle s label a b wt Hs)
    as ([R1 _] & Hadd & [W1 _] & [E1 _]).
  split; [|split; [|split]].
  - destruct (undo_pops (removeVertex label s) _ _ eq_refl R1)
      as (U1 & U2 & U3 & _). done.
  - intros Hex Hab. destruct (Hadd Hex Hab) as [A1 _].
    assert (steps (store_addEdge a b wt s) = []) as Hst.
    { unfold store_addEdge. rewrite Hex, bool_decide_eq_false_2 by done. done. }
    destruct (undo_pops (store_addEdge a b wt s) _ _ Hst A1)
      as (U1 & U2 & U3 & _). done.
  - destruct (undo_pops (updateEdgeWeight a b wt s) _ _ eq_refl W1)
      as (U1 & U2 & U3 & _). done.
  - destruct (undo_pops (store_removeEdge a b s) _ _ eq_refl E1)
      as (U1 & U2 & U3 & _). done.
Qed.

Lemma undo_reverts_mutation_witness :
  steps session_BA = []
  ∧ graph (undo (removeVertex "A" session_BA)) = mkGraph ["B"; "A"] [].
Proof.
  assert (steps session_BA = []) as Hs by reflexivity.
  split; [exact Hs|].
  rewrite (proj1 (proj1 (undo_reverts_mutation session_BA "A" "A" "B" NaN Hs))).
  reflexivity.
Defined.

(** [setGraph] pushes its history entry after it has replaced the graph:
    the entry holds the new graph and positions, and an [undo] right
    after loading a graph leaves the loaded graph in place. *)
Theorem undo_after_setGraph (s : GraphStore.t) (g : Graph)
    (positions : option (gmap string NodePosition)) :
  history (setGraph g positions false s)
  = history s ++ [GraphHistoryEntry.mk g (default (defaultPositions (vertices g)) positions)]
  ∧ graph (undo (setGraph g positions false s)) = g
  ∧ nodePositions (undo (setGraph g positions false s))
    = default (defaultPositions (vertices g)) positions
  ∧ history (undo (setGraph g positions false s)) = history s.
Proof.
  assert (history (setGraph g positions false s)
          = history s ++ [GraphHistoryEntry.mk g
                            (default (defaultPositions (vertices g)) positions)])
    as Hh.
  { unfold setGraph, pushToHistory. simpl. rewrite cloneGraph_id.
    by destruct g. }
  split; [exact Hh|].
  destruct (undo_pops (setGraph g positions false s) _ _ eq_refl Hh)
    as (U1 & U2 & U3 & _). done.
Qed.

(** [undo] and [redo] move exactly one entry from one stack to the other
    when [canUndo], respectively [canRedo], allows them, and do nothing
    otherwise. *)
Theorem undo_redo_stacks (s : GraphStore.t) :
  (canUndo s = false → undo s = s)
  ∧ (canRedo s = false → redo s = s)
  ∧ (canUndo s = true →
     (length (history (undo s)) + 1 = length (history s))%nat
     ∧ length (future (undo s)) = S (length (future s))
     ∧ canRedo (undo s) = true)
  ∧ (canRedo s = true →
     length (history (redo s)) = S (length (history s))
     ∧ (length (future (redo s)) + 1 = length (future s))%nat
     ∧ canUndo (redo s) = true).
Proof.
  unfold canUndo, canRedo. split; [|split; [|split]].
  - intros Hc. unfold undo.
    destruct (history s) as [|e h] eqn:Eh; [done|].
    destruct (steps s) as [|st sts] eqn:Es; [done|].
    rewrite (bool_decide_eq_true_2 (0 < _)%nat) by (simpl; lia).
    by rewrite orb_true_r.
  - intros Hc. unfold redo.
    destruct (future s) as [|e h] eqn:Eh; [done|].
    destruct (steps s) as [|st sts] eqn:Es; [done|].
    rewrite (bool_decide_eq_true_2 (0 < _)%nat) by (simpl; lia).
    by rewrite orb_true_r.
  - intros [Hh Hs]%andb_prop.
    apply bool_decide_eq_true in Hh, Hs. apply length_zero_iff_nil in Hs.
    destruct (history s) as [|e h _] eqn:Eh using rev_ind; [simpl in Hh; lia|].
    destruct (undo_pops s h e Hs Eh) as (_ & _ & U3 & U4 & U5 & _).
    rewrite U3, U4, U5, length_app. simpl. repeat split; try lia.
  - intros [Hf Hs]%andb_prop.
    apply bool_decide_eq_true in Hf, Hs. apply length_zero_iff_nil in Hs.
    destruct (future s) as [|e f] eqn:Ef; [simpl in Hf; lia|].
    destruct (redo_pops s f e Hs Ef) as (_ & _ & R3 & R4 & R5 & _).
    rewrite R3, R4, R5, length_app. simpl. repeat split; try lia.
    rewrite bool_decide_eq_true_2; [done|lia].
Qed.

Lemma undo_redo_stacks_witness :
  canRedo session_undone = true ∧ canUndo (redo session_undone) = true.
Proof.
  assert (canRedo session_undone = true) as H by reflexivity.
  split; [exact H|].
  exact (proj2 (proj2 (proj2 (proj2 (proj2 (undo_redo_stacks session_undone))) H))).
Defined.

(** ** Editing *)

Lemma addVertex_cases (label : option string) (s : GraphStore.t) :
  ∃ newLabel g,
    vertices g ≡ₚ vertices (graph s) ∧ edges g = edges (graph s)
    ∧ (vertices (graph s) = [] → g = graph s)
    ∧ ((newLabel ∈ vertices g ∧ addVertex label s = set_graph g s)
       ∨ ((newLabel ∉ vertices g)
          ∧ addVertex label s
            = store_validate
                (set_currentStep 0%nat
                   (set_steps []
                      (set_nodePositions
                         (<[newLabel := defaultPosition (length (vertices g))]>
                            (nodePositions s))
                         (set_graph (mkGraph (vertices g ++ [newLabel]) (edges g))
                                    s)))))).
Proof.
  unfold addVertex.
  assert (∀ p : string * Graph,
            vertices p.2 ≡ₚ vertices (graph s) → edges p.2 = edges (graph s) →
            (vertices (graph s) = [] → p.2 = graph s) →
            ∃ newLabel g,
              vertices g ≡ₚ vertices (graph s) ∧ edges g = edges (graph s)
              ∧ (vertices (graph s) = [] → g = graph s)
              ∧ ((newLabel ∈ vertices g
                  ∧ (let '(newLabel, g) := p in
                     if bool_decide (newLabel ∈ vertices g) then set_graph g s
                     else store_validate
                            (set_currentStep 0%nat
                               (set_steps []
                                  (set_nodePositions
                                     (<[newLabel := defaultPosition (length (vertices g))]>
                                        (nodePositions s))
                                     (set_graph
                                        (mkGraph (vertices g ++ [newLabel]) (edges g))
                                        s)))))
                    = set_graph g s)
                 ∨ ((newLabel ∉ vertices g)
                    ∧ (let '(newLabel, g) := p in
                       if bool_decide (newLabel ∈ vertices g) then set_graph g s
                       else store_validate
                              (set_currentStep 0%nat
                                 (set_steps []
                                    (set_nodePositions
                                       (<[newLabel := defaultPosition (length (vertices g))]>
                                          (nodePositions s))
                                       (set_graph
                                          (mkGraph (vertices g ++ [newLabel]) (edges g))
                                          s)))))
                      = store_validate
                          (set_currentStep 0%nat
                             (set_steps []
                                (set_nodePositions
                                   (<[newLabel := defaultPosition (length (vertices g))]>
                                      (nodePositions s))
                                   (set_graph
                                      (mkGraph (vertices g ++ [newLabel]) (edges g))
                                      s))))))) as Hgen.
  { intros [newLabel g] Hv He H0. simpl in *. exists newLabel, g.
    split; [done|]. split; [done|]. split; [done|].
    case_bool_decide; [left|right]; done. }
  assert (vertices (getNextVertexLabel (graph s)).2 ≡ₚ vertices (graph s)
          ∧ edges (getNextVertexLabel (graph s)).2 = edges (graph s)
          ∧ (vertices (graph s) = [] → (getNextVertexLabel (graph s)).2 = graph s))
    as (Hv & He & H0).
  { rewrite getNextVertexLabel_leaves_sorted. simpl.
    split; [apply str_sort_perm|]. split; [done|].
    intros Hnil. rewrite Hnil. destruct (graph s); simpl in *. by subst. }
  destruct label as [[|c l]|];
    [apply (Hgen (getNextVertexLabel (graph s)))
    |apply (Hgen (String c l, graph s))
    |apply (Hgen (getNextVertexLabel (graph s)))]; done.
Qed.

(** Adding a vertex under a label of one's own: a label already in use
    changes nothing, a new one is appended after the existing vertices,
    gets the default position of its index and leaves the edges and the
    other positions alone. *)
Theorem addVertex_supplied_label (s : GraphStore.t) (c : ascii) (l : string) :
  (String c l ∈ vertices (graph s) → addVertex (Some (String c l)) s = s)
  ∧ (String c l ∉ vertices (graph s) →
     vertices (graph (addVertex (Some (String c l)) s))
     = vertices (graph s) ++ [String c l]
     ∧ edges (graph (addVertex (Some (String c l)) s)) = edges (graph s)
     ∧ nodePositions (addVertex (Some (String c l)) s)
       = <[String c l := defaultPosition (length (vertices (graph s)))]>
           (nodePositions s)
     ∧ steps (addVertex (Some (String c l)) s) = []
     ∧ validationErrors (addVertex (Some (String c l)) s)
       = validateGraph (graph (addVertex (Some (String c l)) s))).
Proof.
  unfold addVertex. split; intros Hin.
  - rewrite bool_decide_eq_true_2 by done. by destruct s.
  - rewrite bool_decide_eq_false_2 by done. done.
Qed.

Lemma addVertex_supplied_label_witness :
  "A" ∈ vertices (graph session_BA) ∧ addVertex (Some "A") session_BA = session_BA.
Proof.
  assert ("A" ∈ vertices (graph session_BA)) as H.
  { change (vertices (graph session_BA)) with ["B"; "A"].
    right. by left. }
  split; [exact H|].
  exact (proj1 (addVertex_supplied_label session_BA "A"%char EmptyString) H).
Defined.

Lemma distinct_snoc es e :
  distinctEdges es → (∀ e', e' ∈ es → edgesEqual e' e = false) →
  distinctEdges (es ++ [e]).
Proof.
  induction 1 as [|e0 es Hne Hd IH]; intros Hnew; simpl.
  - constructor; [|constructor]. intros e' He'. by apply elem_of_nil in He'.
  - constructor.
    + intros e' [He'|He']%elem_of_app; [by apply Hne|].
      apply list_elem_of_singleton in He' as ->.
      rewrite edgesEqual_sym. apply Hnew. by left.
    + apply IH. intros e' He'. apply Hnew. by right.
Qed.

Lemma distinct_map_endpoints (f : Edge → Edge) es :
  (∀ e, u (f e) = u e ∧ v (f e) = v e) →
  distinctEdges es → distinctEdges (List.map f es).
Proof.
  intros Hf. induction 1 as [|e0 es Hne Hd IH]; simpl; constructor; [|done].
  intros e' He'. apply list_elem_of_In, in_map_iff in He' as (e1 & <- & He1).
  apply list_elem_of_In in He1. specialize (Hne e1 He1).
  unfold edgesEqual in *.
  destruct (Hf e1) as [-> ->]. destruct (Hf e0) as [-> ->]. done.
Qed.

Lemma joins_edgesEqual a b wt e : joins a b e = edgesEqual e (mkEdge a b wt).
Proof. done. Qed.

(** The five editing actions keep a graph simple: if no vertex is listed
    twice, no two edges lie on the same pair and no edge is a loop, the
    same holds afterwards. *)
Theorem edits_keep_simple (s : GraphStore.t) (label : option string)
    (x a b : string) (wt : number) :
  simpleGraph (graph s) →
  simpleGraph (graph (addVertex label s))
  ∧ simpleGraph (graph (removeVertex x s))
  ∧ simpleGraph (graph (store_addEdge a b wt s))
  ∧ simpleGraph (graph (updateEdgeWeight a b wt s))
  ∧ simpleGraph (graph (store_removeEdge a b s)).
Proof.
  intros (Hnodup & Hd & Hloop). split; [|split; [|split; [|split]]].
  - destruct (addVertex_cases label s)
      as (newLabel & g & Hv & He & _ & [[Hin ->]|[Hin ->]]); simpl.
    + unfold simpleGraph. rewrite Hv, He. done.
    + unfold simpleGraph. simpl. rewrite He. split; [|done].
      apply NoDup_app. split; [by rewrite Hv|]. split; [|apply NoDup_singleton].
      intros y Hy ->%list_elem_of_singleton. done.
  - unfold simpleGraph. simpl. split; [|split].
    + apply NoDup_ListNoDup, List.NoDup_filter. by apply NoDup_ListNoDup.
    + eapply distinct_sublist; [apply List_filter_sublist|done].
    + intros e [He _]%elem_of_List_filter. by apply Hloop.
  - unfold store_addEdge.
    destruct (existsb (joins a b) (edges (graph s))) eqn:Hex; simpl; [done|].
    case_bool_decide; simpl; [done|].
    unfold simpleGraph. simpl. split; [done|]. split.
    + apply distinct_snoc; [done|]. intros e' He'.
      rewrite <- (joins_edgesEqual a b wt).
      destruct (joins a b e') eqn:Ej; [|done].
      assert (existsb (joins a b) (edges (graph s)) = true) as Ht; [|congruence].
      apply existsb_exists. exists e'. split; [by apply list_elem_of_In|done].
    + intros e [He|He]%elem_of_app; [by apply Hloop|].
      apply list_elem_of_singleton in He as ->. done.
  - unfold simpleGraph. simpl. split; [done|]. split.
    + apply distinct_map_endpoints; [|done]. intros e. by destruct (joins a b e).
    + intros e He. apply list_elem_of_In, in_map_iff in He as (e1 & <- & He1).
      apply list_elem_of_In in He1. specialize (Hloop e1 He1).
      by destruct (joins a b e1).
  - unfold simpleGraph. simpl. split; [done|]. split.
    + eapply distinct_sublist; [apply List_filter_sublist|done].
    + intros e [He _]%elem_of_List_filter. by apply Hloop.
Qed.

Lemma edits_keep_simple_witness :
  simpleGraph (graph initialStore)
  ∧ simpleGraph (graph (store_addEdge "A" "B" (Num 1) initialStore)).
Proof.
  assert (simpleGraph (graph initialStore)) as H.
  { split; [constructor|]. split; [constructor|].
    intros e He. by apply elem_of_nil in He. }
  split; [exact H|].
  exact (proj1 (proj2 (proj2
           (edits_keep_simple initialStore None "A" "A" "B" (Num 1) H)))).
Defined.

(** Removing a vertex removes it from the list, removes its position,
    removes exactly the edges [getEdgesForVertex] finds at it, and leaves
    no edge to a missing vertex behind where there was none. *)
Theorem removeVertex_incident (s : GraphStore.t) (x : string) :
  (x ∉ vertices (graph (removeVertex x s)))
  ∧ nodePositions (removeVertex x s) !! x = None
  ∧ (∀ e, e ∈ edges (graph (removeVertex x s)) → u e ≠ x ∧ v e ≠ x)
  ∧ edges (graph (removeVertex x s)) ++ getEdgesForVertex (graph s) x
    ≡ₚ edges (graph s)
  ∧ (noDangling (graph s) → noDangling (graph (removeVertex x s))).
Proof.
  assert (∀ t, nodePositions (pushToHistory t) = nodePositions t
               ∧ graph (pushToHistory t) = graph t) as Hp.
  { intros t. unfold pushToHistory. by case_bool_decide. }
  simpl. split; [|split; [|split; [|split]]].
  - intros [_ Hx]%elem_of_List_filter. by rewrite bool_decide_eq_true_2 in Hx.
  - apply lookup_delete_eq.
  - intros e [_ He]%elem_of_List_filter.
    apply andb_prop in He as [H1 H2].
    apply negb_true_iff, bool_decide_eq_false in H1, H2. done.
  - unfold getEdgesForVertex. generalize (edges (graph s)). intros es.
    induction es as [|e es IH]; simpl; [done|].
    destruct (bool_decide (u e = x)), (bool_decide (v e = x)); simpl;
      rewrite <- ?Permutation_middle; by rewrite IH.
  - intros Hnd e [He Hk]%elem_of_List_filter. simpl.
    apply andb_prop in Hk as [H1 H2].
    apply negb_true_iff, bool_decide_eq_false in H1, H2.
    destruct (Hnd e He) as [Hu Hv].
    split; apply elem_of_List_filter; (split; [done|]);
      by rewrite bool_decide_eq_false_2.
Qed.

Lemma removeVertex_incident_witness :
  noDangling (graph (setGraph triangle None true initialStore))
  ∧ noDangling (graph (removeVertex "A" (setGraph triangle None true initialStore))).
Proof.
  assert (noDangling (graph (setGraph triangle None true initialStore))) as H
    by exact noDangling_triangle.
  split; [exact H|].
  exact (proj2 (proj2 (proj2 (proj2
           (removeVertex_incident (setGraph triangle None true initialStore) "A"))))
         H).
Defined.

(** Editing edges in the store.  [addEdge] changes nothing when an edge
    already joins the pair, in either direction, or when the two ends
    are the same; adding an edge on a free pair and removing it again gives
    back the graph; and after [updateEdgeWeight] the edges have the ends
    they had, those on the pair carry the new weight and the others their
    old one. *)
Theorem store_edge_edits (s : GraphStore.t) (a b : string) (wt : number) :
  (existsb (joins a b) (edges (graph s)) = true ∨ a = b →
   store_addEdge a b wt s = s)
  ∧ (existsb (joins a b) (edges (graph s)) = false →
     graph (store_removeEdge a b (store_addEdge a b wt s)) = graph s)
  ∧ Forall2 (λ e e', u e' = u e ∧ v e' = v e
                     ∧ w e' = (if joins a b e then wt else w e))
            (edges (graph s)) (edges (graph (updateEdgeWeight a b wt s))).
Proof.
  split; [|split].
  - unfold store_addEdge. intros [->| ->]; [done|].
    rewrite bool_decide_eq_true_2 by done. by rewrite andb_false_r.
  - intros Hex.
    assert (List.filter (λ e, negb (joins a b e)) (edges (graph s))
            = edges (graph s)) as Hkeep.
    { apply List_filter_all. apply Forall_forall. intros e He.
      apply negb_true_iff. destruct (joins a b e) eqn:E; [|done].
      assert (existsb (joins a b) (edges (graph s)) = true) as Ht; [|congruence].
      apply existsb_exists. exists e. split; [|done]. by apply list_elem_of_In. }
    unfold store_addEdge. rewrite Hex. simpl. case_bool_decide; simpl.
    + rewrite Hkeep. by destruct (graph s).
    + rewrite List.filter_app, Hkeep. simpl.
      unfold joins at 1. simpl. rewrite !bool_decide_eq_true_2 by done. simpl.
      rewrite app_nil_r. by destruct (graph s).
  - simpl. generalize (edges (graph s)). intros es.
    induction es as [|e es IH]; simpl; [constructor|].
    constructor; [|done]. by destruct (joins a b e).
Qed.

Lemma store_edge_edits_witness :
  existsb (joins "A" "B") (edges (graph initialStore)) = false
  ∧ graph (store_removeEdge "A" "B" (store_addEdge "A" "B" (Num 1) initialStore))
    = graph initialStore.
Proof.
  assert (existsb (joins "A" "B") (edges (graph initialStore)) = false) as H
    by reflexivity.
  split; [exact H|].
  exact (proj1 (proj2 (store_edge_edits initialStore "A" "B" (Num 1))) H).
Defined.

(** Moving the cursor, pausing and changing speed never touch the graph,
    the positions, the trace, the errors or the two stacks. *)
Theorem navigation_frame (s : GraphStore.t) (k : Z) (speed : PlaySpeed) :
  Forall (λ s', graph s' = graph s ∧ nodePositions s' = nodePositions s
                ∧ steps s' = steps s
                ∧ validationErrors s' = validationErrors s
                ∧ history s' = history s ∧ future s' = future s)
         [nextStep s; previousStep s; goToStep k s; resetSteps s;
          togglePlay s; setPlaySpeed speed s].
Proof.
  unfold nextStep, previousStep, goToStep, resetSteps, togglePlay, setPlaySpeed.
  repeat constructor; repeat case_bool_decide; simpl; done.
Qed.

(** ** What every session state satisfies *)

Lemma inv_fresh (s' : GraphStore.t) :
  validationErrors s' = validateGraph (graph s') → steps s' = [] →
  currentStep s' = 0%nat →
  errorsCurrent s' ∧ cursorInRange s' ∧ traceCurrent s'.
Proof. intros H1 H2 H3. split; [by left|]. split; by left. Qed.

Lemma inv_same (s s' : GraphStore.t) :
  graph s' = graph s → validationErrors s' = validationErrors s →
  steps s' = steps s → currentStep s' = currentStep s →
  errorsCurrent s ∧ cursorInRange s ∧ traceCurrent s →
  errorsCurrent s' ∧ cursorInRange s' ∧ traceCurrent s'.
Proof.
  unfold errorsCurrent, cursorInRange, traceCurrent.
  intros -> -> -> ->. done.
Qed.

Lemma inv_cursor (s s' : GraphStore.t) :
  graph s' = graph s → validationErrors s' = validationErrors s →
  steps s' = steps s →
  (currentStep s' = 0 ∨ currentStep s' < length (steps s))%nat →
  errorsCurrent s ∧ cursorInRange s ∧ traceCurrent s →
  errorsCurrent s' ∧ cursorInRange s' ∧ traceCurrent s'.
Proof.
  unfold errorsCurrent, cursorInRange, traceCurrent.
  intros -> -> -> Hc (H1 & _ & H3). done.
Qed.

Lemma pushToHistory_fields (s : GraphStore.t) :
  graph (pushToHistory s) = graph s
  ∧ validationErrors (pushToHistory s) = validationErrors s
  ∧ steps (pushToHistory s) = steps s
  ∧ currentStep (pushToHistory s) = currentStep s.
Proof. unfold pushToHistory. by case_bool_decide. Qed.

Lemma perform_invariants (a : Action) (s : GraphStore.t) :
  errorsCurrent s ∧ cursorInRange s ∧ traceCurrent s →
  errorsCurrent (perform a s) ∧ cursorInRange (perform a s)
  ∧ traceCurrent (perform a s).
Proof.
  intros Hinv. destruct a; simpl.
  - (* setGraph *)
    unfold setGraph. destruct skipHistory.
    + by apply inv_fresh.
    + match goal with |- context [pushToHistory ?t] =>
        destruct (pushToHistory_fields t) as (H1 & H2 & H3 & H4) end.
      apply inv_fresh; [by rewrite H1, H2|by rewrite H3|by rewrite H4].
  - by apply (inv_same s).
  - unfold updateNodePositions. destruct skipHistory; [by apply (inv_same s)|].
    match goal with |- context [pushToHistory ?t] =>
      destruct (pushToHistory_fields t) as (H1 & H2 & H3 & H4) end.
    apply (inv_same s); [by rewrite H1|by rewrite H2|by rewrite H3|by rewrite H4|done].
  - (* addVertex *)
    destruct (addVertex_cases label s)
      as (newLabel & g & Hv & He & H0 & [[Hin ->]|[Hin ->]]).
    + destruct Hinv as (Herr & Hcur & Htr).
      unfold errorsCurrent, cursorInRange, traceCurrent in *. simpl.
      assert (validateGraph g = validateGraph (graph s)) as Hval.
      { destruct g as [vs es], (graph s) as [vs0 es0]. simpl in *. subst.
        by apply validateGraph_perm_vertices. }
      split; [|split; [done|]].
      * destruct Herr as [Herr|[Hg Herr]]; [left; by rewrite Hval|].
        right. split; [|done]. rewrite H0; [done|]. by rewrite Hg.
      * destruct Htr as [?|(g0 & H1 & H2 & H3 & H4)]; [by left|].
        right. exists g0. split; [done|]. split; [done|].
        split; [by rewrite Hv|by rewrite He].
    + by apply inv_fresh.
  - by apply inv_fresh.
  - unfold store_addEdge. destruct (_ && _); [by apply inv_fresh|done].
  - by apply inv_fresh.
  - by apply inv_fresh.
  - (* clearGraph *)
    split; [right; done|]. split; by left.
  - (* validate *)
    destruct Hinv as (_ & Hcur & Htr). split; [by left|]. done.
  - (* runAlgorithm *)
    unfold runAlgorithm. case_bool_decide as Hlen; [done|].
    destruct Hinv as (Herr & _ & _).
    assert (validationErrors s = []) as Hnil.
    { destruct (validationErrors s); [done|]. simpl in Hlen. lia. }
    unfold errorsCurrent, cursorInRange, traceCurrent in *. simpl.
    split; [done|]. split; [by left|].
    destruct Herr as [Herr|[Hg _]].
    + right. exists (graph s). rewrite <- Herr. done.
    + left. by rewrite Hg.
  - (* nextStep *)
    unfold nextStep. case_bool_decide; [|done].
    apply (inv_cursor s); try done. simpl. right. lia.
  - (* previousStep *)
    unfold previousStep. case_bool_decide; [|done].
    apply (inv_cursor s); try done. simpl.
    destruct Hinv as (_ & [?|?] & _); [lia|right; lia].
  - (* goToStep *)
    unfold goToStep. destruct (_ && _) eqn:E; [|done].
    apply andb_prop in E as [E1 E2]. apply bool_decide_eq_true in E1, E2.
    apply (inv_cursor s); try done. simpl. right. lia.
  - apply (inv_cursor s); try done. by left.
  - by apply (inv_same s).
  - by apply (inv_same s).
  - by apply (inv_same s).
  - by apply (inv_same s).
  - by apply (inv_same s).
  - (* applyTidyLayout *)
    unfold applyTidyLayout. case_bool_decide; [done|].
    destruct (pushToHistory_fields s) as (H1 & H2 & H3 & H4).
    by apply (inv_same s).
  - (* undo *)
    unfold undo. destruct (_ || _); [done|].
    destruct (last (history s)); [|done]. by apply inv_fresh.
  - (* redo *)
    unfold redo. destruct (_ || _); [done|].
    destruct (future s); [done|]. by apply inv_fresh.
  - destruct (pushToHistory_fields s) as (H1 & H2 & H3 & H4).
    by apply (inv_same s).
Qed.

Lemma reachable_invariants_aux (s : GraphStore.t) :
  reachable s → errorsCurrent s ∧ cursorInRange s ∧ traceCurrent s.
Proof.
  induction 1 as [|a s Hr IH].
  - split; [right; done|]. split; by left.
  - by apply perform_invariants.
Qed.

(** In every state a session can reach: the errors on display are those
    [validateGraph] gives for the graph on display (or none, on the empty
    graph of a fresh or cleared session); the cursor is [0] or inside the
    trace; and a trace on display is the one [reverseDelete] computes for
    a graph without validation errors that has the edges of the graph on
    display and the same vertices. *)
Theorem reachable_invariants (s : GraphStore.t) :
  reachable s → errorsCurrent s ∧ cursorInRange s ∧ traceCurrent s.
Proof. apply reachable_invariants_aux. Qed.

Lemma reachable_invariants_witness :
  reachable (perform ARunAlgorithm
               (perform (ASetGraph triangle None false) initialStore))
  ∧ traceCurrent (perform ARunAlgorithm
                    (perform (ASetGraph triangle None false) initialStore)).
Proof.
  assert (reachable (perform ARunAlgorithm
                       (perform (ASetGraph triangle None false) initialStore)))
    as H by (do 2 apply reachable_step; apply reachable_init).
  split; [exact H|].
  exact (proj2 (proj2 (reachable_invariants _ H))).
Defined.

(** In a reachable state the run button only ever produces a trace for a
    graph that validates: if [runAlgorithm] leaves a non-empty trace where
    there was none, the graph on display has no validation error and the
    trace is the one [reverseDelete] computes for it. *)
Theorem runAlgorithm_gated (s : GraphStore.t) :
  reachable s →
  (validationErrors s ≠ [] → runAlgorithm s = s)
  ∧ (steps s = [] → steps (runAlgorithm s) ≠ [] →
     validateGraph (graph s) = []
     ∧ steps (runAlgorithm s) = reverseDelete (graph s)
     ∧ currentStep (runAlgorithm s) = 0%nat
     ∧ graph (runAlgorithm s) = graph s).
Proof.
  intros Hr. destruct (reachable_invariants_aux s Hr) as (Herr & _ & _).
  unfold runAlgorithm. split.
  - intros Hne. rewrite bool_decide_eq_true_2; [done|].
    destruct (validationErrors s); [done|simpl; lia].
  - intros Hs. case_bool_decide as Hlen; [by rewrite Hs|]. simpl. intros Hne.
    assert (validationErrors s = []) as Hnil.
    { destruct (validationErrors s); [done|]. simpl in Hlen. lia. }
    destruct Herr as [Herr|[Hg _]].
    + by rewrite <- Herr.
    + by rewrite Hg in Hne.
Qed.

Lemma runAlgorithm_gated_witness :
  reachable (perform (ASetGraph triangle None false) initialStore)
  ∧ validateGraph (graph (perform (ASetGraph triangle None false) initialStore)) = [].
Proof.
  assert (reachable (perform (ASetGraph triangle None false) initialStore)) as H
    by (apply reachable_step; apply reachable_init).
  split; [exact H|].
  apply (proj2 (runAlgorithm_gated _ H)).
  - reflexivity.
  - vm_compute. congruence.
Defined.

(** ** Minimality *)















